(** * Laser-tag robot control core (FinalCode/pi.py)

    A shallow embedding of the control core of the robot: the IR codec
    ([send_team_id], [IRReceiver.process_bursts]), the mecanum kinematics
    and duty mapping ([drive_mecanum], [apply_motor]), the hit handler
    ([on_laser_hit]), the datagram handler
    ([ControlProtocol.datagram_received]) and one iteration of
    [control_loop]; then the receiver's [edge_callback] and the pin writes
    of [setup_io] and [cleanup].

    Conventions of the embedding.
    - Python [int] values (team ids, burst widths in microseconds, pin
      numbers, duty cycles) are [Z].
    - Python [float] values (axes, speed, wall-clock seconds) are exact
      rationals [Q]; comparisons are the rational ones and results are
      compared with [==].  Rounding of IEEE doubles is not modelled.
    - The module-level globals of pi.py are the fields of one record
      [robot] that every function threads explicitly.  The pigpio handle
      [pi] is the map of what was last commanded on each pin; waves sent
      on the IR transmit pin are appended to a log.
    - [time.time()] is an argument [now] of the function that calls it;
      [time.sleep] and [print] have no effect on the modelled state. *)

From Stdlib Require Import ZArith QArith Qabs Qround Lia Lqa Bool List.
From stdpp Require Import gmap list.
Import ListNotations.

Local Open Scope Z_scope.

(** ** USER CONFIG *)

Inductive motor := A | B | C | D.

Inductive corner_name := FL | FR | RL | RR.

Record motor_pins := { EN : Z; IN1 : Z; IN2 : Z; corner : corner_name }.

Definition MOTORS (m : motor) : motor_pins :=
  match m with
  | A => {| EN := 18; IN1 := 23; IN2 := 24; corner := FL |}
  | B => {| EN := 19; IN1 := 25; IN2 := 8; corner := FR |}
  | C => {| EN := 5; IN1 := 22; IN2 := 26; corner := RL |}
  | D => {| EN := 6; IN1 := 16; IN2 := 20; corner := RR |}
  end.

(** [MOTORS.values()], in the insertion order of the dict. *)
Definition MOTORS_values : list motor_pins := map MOTORS [A; B; C; D].

Definition IR_TX_GPIO : Z := 17.

Definition CARRIER_FREQ : Z := 38000.
(** [int(1_000_000 / CARRIER_FREQ)]: the quotient is positive, so the
    truncation of the float quotient is the integer quotient, 26. *)
Definition CARRIER_PERIOD_US : Z := Z.quot 1000000 CARRIER_FREQ.
Definition PULSE_ON_US : Z := CARRIER_PERIOD_US / 2.
Definition PULSE_OFF_US : Z := CARRIER_PERIOD_US - PULSE_ON_US.

Definition BIT_0_BURST : Z := 800.
Definition BIT_1_BURST : Z := 1600.
Definition START_END_BURST : Z := 2400.
Definition TOLERANCE : Z := 200.

Definition DIR_OFFSET (m : motor) : Q := 1%Q.
Definition STBY_PINS : list Z := [9; 11].
Definition MIN_DUTY_FLOOR : Z := 30.
Definition PURE_DC_THRESHOLD : Z := 80.

Definition COMMAND_TIMEOUT_S : Q := (8 # 10)%Q.
Definition POWER_SAVE_TIMEOUT_S : Q := 10%Q.
Definition HIT_DISABLE_TIME : Q := 10%Q.

(** ** Python arithmetic on floats, over [Q] *)

Definition Qltb (x y : Q) : bool := negb (Qle_bool y x).

(** [max(a, b)] keeps its first argument unless the second is strictly
    greater; [min(a, b)] keeps it unless the second is strictly smaller. *)
Definition py_max (a b : Q) : Q := if Qltb a b then b else a.
Definition py_min (a b : Q) : Q := if Qltb b a then b else a.

(** [int(x)] truncates towards zero. *)
Definition py_int (x : Q) : Z := Z.quot (Qnum x) (Zpos (Qden x)).

Definition clamp (v lo hi : Q) : Q := py_max lo (py_min hi v).

(** ** The pigpio handle *)

(** What a GPIO was last told: a level ([pi.write]) or a PWM duty cycle
    out of 255 ([pi.set_PWM_dutycycle]).  A write ends the PWM on the pin
    and a duty cycle replaces the level, so the last call decides. *)
Inductive pin_out := Level (b : bool) | PWM (duty : Z).

(** One [pi.wave_chain] call of [send_ir_burst]: the burst asked for and
    the number of carrier periods the chain repeats. *)
Record ir_burst := { burst_us : Z; cycles : Z }.

(** ** Global variables *)

Record command := {
  vx : Q; vy : Q; omega : Q; speed : Q;
  estop : bool; fire : bool; team_id : Z }.

Record laser_tag := {
  is_hit : bool;
  hit_by_team : Z;
  hit_time : Q;
  time_remaining : Q;
  is_self_hit : bool }.

Record robot := {
  pi : gmap Z pin_out;
  ir_tx : list ir_burst;
  last_cmd_time : Q;
  last_input_time : Q;
  in_standby : bool;
  state : command;
  laser_tag_state : laser_tag }.

Definition set_pi (g : gmap Z pin_out) (r : robot) : robot :=
  {| pi := g; ir_tx := ir_tx r;
     last_cmd_time := last_cmd_time r; last_input_time := last_input_time r;
     in_standby := in_standby r; state := state r;
     laser_tag_state := laser_tag_state r |}.

Definition set_ir_tx (l : list ir_burst) (r : robot) : robot :=
  {| pi := pi r; ir_tx := l;
     last_cmd_time := last_cmd_time r; last_input_time := last_input_time r;
     in_standby := in_standby r; state := state r;
     laser_tag_state := laser_tag_state r |}.

Definition set_in_standby (b : bool) (r : robot) : robot :=
  {| pi := pi r; ir_tx := ir_tx r;
     last_cmd_time := last_cmd_time r; last_input_time := last_input_time r;
     in_standby := b; state := state r;
     laser_tag_state := laser_tag_state r |}.

Definition set_laser_tag_state (l : laser_tag) (r : robot) : robot :=
  {| pi := pi r; ir_tx := ir_tx r;
     last_cmd_time := last_cmd_time r; last_input_time := last_input_time r;
     in_standby := in_standby r; state := state r;
     laser_tag_state := l |}.

(** The initial values of the globals; [setup_io] has run on the pins. *)
Definition initial_state : command :=
  {| vx := 0; vy := 0; omega := 0; speed := 1;
     estop := false; fire := false; team_id := 1 |}.

Definition initial_laser_tag_state : laser_tag :=
  {| is_hit := false; hit_by_team := 0; hit_time := 0;
     time_remaining := 0; is_self_hit := false |}.

(** ** GPIO writes *)

Definition write (pin : Z) (level : bool) (g : gmap Z pin_out) : gmap Z pin_out :=
  <[pin := Level level]> g.

Definition set_PWM_dutycycle (pin duty : Z) (g : gmap Z pin_out) : gmap Z pin_out :=
  <[pin := PWM duty]> g.

Definition stop_motor (m : motor_pins) (g : gmap Z pin_out) : gmap Z pin_out :=
  write (IN2 m) false (write (IN1 m) false (set_PWM_dutycycle (EN m) 0 g)).

Definition stop_all_motors (g : gmap Z pin_out) : gmap Z pin_out :=
  foldl (fun g m => stop_motor m g) g MOTORS_values.

Definition enter_standby (g : gmap Z pin_out) : gmap Z pin_out :=
  foldl (fun g s => write s false g) (stop_all_motors g) STBY_PINS.

Definition exit_standby (g : gmap Z pin_out) : gmap Z pin_out :=
  foldl (fun g s => write s true g) g STBY_PINS.

(** [setup_io]: STBY pins high, every motor pin low, transmitter low. *)
Definition setup_io (g : gmap Z pin_out) : gmap Z pin_out :=
  let g := foldl (fun g s => write s true g) g STBY_PINS in
  let g := foldl (fun g m => write (IN2 m) false
                               (write (IN1 m) false (write (EN m) false g)))
                 g MOTORS_values in
  write IR_TX_GPIO false g.

(** ** Motor control *)

(** [apply_motor(name, norm)]. *)
Definition apply_motor (name : motor) (norm : Q) (g : gmap Z pin_out) : gmap Z pin_out :=
  let norm := (clamp norm (-1) 1 * DIR_OFFSET name)%Q in
  let pins := MOTORS name in
  if Qltb (Qabs norm) (1 # 1000) then
    write (IN2 pins) false (write (IN1 pins) false (set_PWM_dutycycle (EN pins) 0 g))
  else
    let forward := Qltb 0 norm in
    let g := write (IN1 pins) (if forward then true else false) g in
    let g := write (IN2 pins) (if forward then false else true) g in
    let pct := py_int (Qabs norm * 100)%Q in
    if PURE_DC_THRESHOLD <=? pct then
      write (EN pins) true g
    else
      let pct := Z.max MIN_DUTY_FLOOR pct in
      let duty := pct * 255 / 100 in
      set_PWM_dutycycle (EN pins) duty g.

(** The four wheel values of [drive_mecanum], named as its locals. *)
Record wheels := { fl : Q; fr : Q; rl : Q; rr : Q }.

(** Lines 161-164 of [drive_mecanum]: the values before normalisation. *)
Definition mecanum_mix (vx vy omega : Q) : wheels :=
  {| fl := vy + vx + omega;
     fr := - vy + vx - omega;
     rl := - vy + vx + omega;
     rr := vy + vx - omega |}%Q.

(** Line 166: [max(1.0, abs(fl), abs(fr), abs(rl), abs(rr))], scanned from
    the left. *)
Definition mecanum_scale (w : wheels) : Q :=
  foldl py_max 1%Q [Qabs (fl w); Qabs (fr w); Qabs (rl w); Qabs (rr w)].

(** Line 167: every value divided by the scale. *)
Definition mecanum_normalized (vx vy omega : Q) : wheels :=
  let w := mecanum_mix vx vy omega in
  let scale := mecanum_scale w in
  {| fl := fl w / scale; fr := fr w / scale;
     rl := rl w / scale; rr := rr w / scale |}%Q.

(** Line 169: every value multiplied by [max_speed]; these are the values
    handed to [apply_motor]. *)
Definition mecanum_wheels (vx vy omega max_speed : Q) : wheels :=
  let w := mecanum_normalized vx vy omega in
  {| fl := fl w * max_speed; fr := fr w * max_speed;
     rl := rl w * max_speed; rr := rr w * max_speed |}%Q.

Definition drive_mecanum (vx vy omega max_speed : Q) (g : gmap Z pin_out)
  : gmap Z pin_out :=
  let w := mecanum_wheels vx vy omega max_speed in
  apply_motor D (rr w) (apply_motor C (rl w) (apply_motor B (fr w)
    (apply_motor A (fl w) g))).

(** ** IR transmission *)

(** [send_ir_burst(burst_us)]: one wave chain on the transmit pin. *)
Definition send_ir_burst (us : Z) (r : robot) : robot :=
  set_ir_tx (ir_tx r ++ [{| burst_us := us; cycles := us / CARRIER_PERIOD_US |}]) r.

Definition send_ir_bit (bit : Z) (r : robot) : robot :=
  if bit =? 1 then send_ir_burst BIT_1_BURST r else send_ir_burst BIT_0_BURST r.

(** [send_team_id(team_id)]: nothing while hit; otherwise the start burst,
    the eight bits from bit 7 down to bit 0, and the end burst. *)
Definition send_team_id (id : Z) (r : robot) : robot :=
  if is_hit (laser_tag_state r) then r
  else
    let r := send_ir_burst START_END_BURST r in
    let r := foldl (fun r i => send_ir_bit (Z.land (Z.shiftr id (7 - i)) 1) r)
                   r (seqZ 0 8) in
    send_ir_burst START_END_BURST r.

(** The durations of the bursts sent so far, as a receiver without jitter
    measures them. *)
Definition sent_bursts (r : robot) : list Z := map burst_us (ir_tx r).

(** ** IR reception *)

(** [on_laser_hit(attacking_team)]; [now] is its [time.time()]. *)
Definition on_laser_hit (attacking_team : Z) (now : Q) (r : robot) : robot :=
  if is_hit (laser_tag_state r) then r
  else
    let l :=
      if attacking_team =? team_id (state r) then
        {| is_hit := true; hit_by_team := attacking_team; hit_time := now;
           time_remaining := HIT_DISABLE_TIME; is_self_hit := true |}
      else
        {| is_hit := true; hit_by_team := attacking_team; hit_time := now;
           time_remaining := HIT_DISABLE_TIME; is_self_hit := false |} in
    let r := set_laser_tag_state l r in
    let r := set_pi (stop_all_motors (pi r)) r in
    set_pi (enter_standby (pi r)) r.

(** [bursts[i]] for an index inside the list. *)
Definition burst_at (bursts : list Z) (i : Z) : Z := nth (Z.to_nat i) bursts 0.

(** The loop [for i in range(1, 9)] of [process_bursts], from the indices
    still to visit and the [team_id] accumulated so far; [None] is the
    early [return] on a burst that is neither bit. *)
Fixpoint decode_bits (idx : list Z) (bursts : list Z) (id : Z) : option Z :=
  match idx with
  | [] => Some id
  | i :: idx =>
      let burst := burst_at bursts i in
      let bit_pos := 7 - (i - 1) in
      if Z.abs (burst - BIT_1_BURST) <=? TOLERANCE then
        decode_bits idx bursts (Z.lor id (Z.shiftl 1 bit_pos))
      else if Z.abs (burst - BIT_0_BURST) <=? TOLERANCE then
        decode_bits idx bursts id
      else None
  end.

(** [process_bursts] up to its last line: the team id it passes to
    [on_laser_hit], or [None] when it returns before. *)
Definition decode_frame (bursts : list Z) : option Z :=
  if negb (Z.of_nat (length bursts) =? 10) then None
  else if (TOLERANCE <? Z.abs (burst_at bursts 0 - START_END_BURST))
          || (TOLERANCE <? Z.abs (burst_at bursts 9 - START_END_BURST)) then None
  else decode_bits (seqZ 1 8) bursts 0.

(** [IRReceiver.process_bursts], on the receiver's buffer [bursts]. *)
Definition process_bursts (bursts : list Z) (now : Q) (r : robot) : robot :=
  match decode_frame bursts with
  | Some id => on_laser_hit id now r
  | None => r
  end.

(** ** UDP control *)

(** A decoded JSON object, with the keys the handler reads; [None] is an
    absent key.  Values are taken at the type the handler converts them
    to ([float], [bool], [int]); a value the conversion rejects raises in
    the source and is outside this type. *)
Record message := {
  msg_vx : option Q; msg_vy : option Q; msg_omega : option Q;
  msg_speed : option Q;
  msg_estop : option bool; msg_fire : option bool;
  msg_team_id : option Z;
  msg_last_input_time : option Q }.

(** The work handed to [threading.Thread]: the lambda reads
    [state["team_id"]] when the thread runs, not when it is created. *)
Inductive thread := fire_thread.

Definition run_thread (t : thread) (r : robot) : robot :=
  match t with
  | fire_thread => send_team_id (team_id (state r)) r
  end.

(** The status sent back to the laptop. *)
Record response := {
  resp_team_id : Z;
  resp_is_hit : bool;
  resp_hit_by_team : Z;
  resp_time_remaining : Q;
  resp_is_self_hit : bool }.

Record handled := {
  h_robot : robot;
  h_threads : list thread;
  h_response : option response }.

(** [msg.get(key, default)]. *)
Definition get {T} (field : option T) (default : T) : T :=
  match field with Some v => v | None => default end.

(** Lines 354-360: the cached command after a datagram. *)
Definition update_state (msg : message) (st : command) : command :=
  {| vx := get (msg_vx msg) (vx st);
     vy := get (msg_vy msg) (vy st);
     omega := get (msg_omega msg) (omega st);
     speed := clamp (get (msg_speed msg) (speed st)) 0 1;
     estop := get (msg_estop msg) false;
     fire := get (msg_fire msg) false;
     team_id := get (msg_team_id msg) (team_id st) |}.

(** Lines 373-374 without [in_standby]: some axis above 0.05, or estop. *)
Definition wakes (st : command) : bool :=
  Qltb (5 # 100) (Qabs (vx st)) || Qltb (5 # 100) (Qabs (vy st))
  || Qltb (5 # 100) (Qabs (omega st)) || estop st.

(** [ControlProtocol.datagram_received]; [data] is [None] when
    [json.loads] raises, [now] is the handler's [time.time()]. *)
Definition datagram_received (data : option message) (now : Q) (r : robot)
  : handled :=
  match data with
  | None => {| h_robot := r; h_threads := []; h_response := None |}
  | Some msg =>
      let st := update_state msg (state r) in
      let last_input := get (msg_last_input_time msg) (last_input_time r) in
      let threads :=
        if fire st && negb (is_hit (laser_tag_state r)) then [fire_thread]
        else [] in
      let leave := in_standby r && wakes st in
      let l := laser_tag_state r in
      {| h_robot :=
           {| pi := if leave then exit_standby (pi r) else pi r;
              ir_tx := ir_tx r;
              last_cmd_time := now;
              last_input_time := last_input;
              in_standby := if leave then false else in_standby r;
              state := st;
              laser_tag_state := l |};
         h_threads := threads;
         h_response :=
           Some {| resp_team_id := team_id st;
                   resp_is_hit := is_hit l;
                   resp_hit_by_team := hit_by_team l;
                   resp_time_remaining := time_remaining l;
                   resp_is_self_hit := is_self_hit l |} |}
  end.

(** ** Control loop *)

(** Lines 399-418 of [control_loop]: the laser tag timer. *)
Definition update_timer (now : Q) (r : robot) : robot :=
  let l := laser_tag_state r in
  if is_hit l then
    let elapsed := (now - hit_time l)%Q in
    let l := {| is_hit := is_hit l; hit_by_team := hit_by_team l;
                hit_time := hit_time l;
                time_remaining := py_max 0 (HIT_DISABLE_TIME - elapsed);
                is_self_hit := is_self_hit l |} in
    let r := set_laser_tag_state l r in
    if Qle_bool HIT_DISABLE_TIME elapsed then
      let r := set_laser_tag_state
                 {| is_hit := false; hit_by_team := 0; hit_time := 0;
                    time_remaining := 0; is_self_hit := false |} r in
      let r := set_pi (exit_standby (pi r)) r in
      set_in_standby false r
    else r
  else r.

(** Lines 420-427 of [control_loop]: the motor control logic. *)
Definition motor_control (now : Q) (r : robot) : robot :=
  let st := state r in
  if is_hit (laser_tag_state r) || estop st
     || Qltb COMMAND_TIMEOUT_S (now - last_cmd_time r) then
    set_pi (stop_all_motors (pi r)) r
  else if Qltb POWER_SAVE_TIMEOUT_S (now - last_input_time r)
          && negb (in_standby r) then
    set_in_standby true (set_pi (enter_standby (pi r)) r)
  else if negb (in_standby r) && negb (is_hit (laser_tag_state r)) then
    set_pi (drive_mecanum (vx st) (vy st) (omega st) (speed st) (pi r)) r
  else r.

(** One iteration of the [while True] of [control_loop], with its
    [now = time.time()]. *)
Definition control_tick (now : Q) (r : robot) : robot :=
  motor_control now (update_timer now r).

(** The robot as [main] leaves it before the first datagram: pins set up,
    both timestamps at the start time. *)
Definition initial_robot (start : Q) : robot :=
  {| pi := setup_io ∅; ir_tx := [];
     last_cmd_time := start; last_input_time := start;
     in_standby := false;
     state := initial_state; laser_tag_state := initial_laser_tag_state |}.

(** ** Vocabulary of the properties *)

(** A datagram that asks to fire, with every other key absent. *)
Definition fire_message : message :=
  {| msg_vx := None; msg_vy := None; msg_omega := None; msg_speed := None;
     msg_estop := None; msg_fire := Some true; msg_team_id := None;
     msg_last_input_time := None |}.

(** A datagram that asks for full speed ahead. *)
Definition forward_message : message :=
  {| msg_vx := Some 1%Q; msg_vy := None; msg_omega := None; msg_speed := None;
     msg_estop := None; msg_fire := None; msg_team_id := None;
     msg_last_input_time := Some 1%Q |}.

(** A datagram with every key absent, and one that only asserts estop. *)
Definition idle_message : message :=
  {| msg_vx := None; msg_vy := None; msg_omega := None; msg_speed := None;
     msg_estop := None; msg_fire := None; msg_team_id := None;
     msg_last_input_time := None |}.

Definition estop_message : message :=
  {| msg_vx := None; msg_vy := None; msg_omega := None; msg_speed := None;
     msg_estop := Some true; msg_fire := None; msg_team_id := None;
     msg_last_input_time := None |}.

(** The frame of a team id, bit by bit: what [send_team_id] appends to the
    log, read as durations. *)
Definition bit_burst (id i : Z) : Z :=
  if Z.testbit id (7 - i) then BIT_1_BURST else BIT_0_BURST.

Definition team_frame (id : Z) : list Z :=
  START_END_BURST :: map (bit_burst id) (seqZ 0 8) ++ [START_END_BURST].

(** The bursts one call of [send_team_id] adds to the log of [r]. *)
Definition frame_sent (id : Z) (r : robot) : list Z :=
  drop (length (ir_tx r)) (sent_bursts (send_team_id id r)).

(** The frame of [id] with the burst at position [i] replaced by one of
    [us] microseconds. *)
Definition frame_with (id i us : Z) : list Z :=
  <[Z.to_nat i := us]> (team_frame id).

(** The equations as the specification prints them, with [- vx] in the
    rear right wheel. *)
Definition reference_mix (vx vy omega : Q) : wheels :=
  {| fl := vy + vx + omega;
     fr := - vy + vx - omega;
     rl := - vy + vx + omega;
     rr := vy - vx - omega |}%Q.

Definition wheels_eq (w w' : wheels) : Prop :=
  (fl w == fl w' /\ fr w == fr w' /\ rl w == rl w' /\ rr w == rr w')%Q.

(** A motor output is zero: duty 0 on the enable pin and both direction
    pins low, as [stop_all_motors] leaves it. *)
Definition motor_stopped (g : gmap Z pin_out) (m : motor_pins) : Prop :=
  g !! EN m = Some (PWM 0)
  /\ g !! IN1 m = Some (Level false)
  /\ g !! IN2 m = Some (Level false).

Definition all_motors_stopped (g : gmap Z pin_out) : Prop :=
  ∀ name : motor, motor_stopped g (MOTORS name).

(** Both STBY pins of the motor drivers are at [level]. *)
Definition standby_pins (level : bool) (g : gmap Z pin_out) : Prop :=
  Forall (fun s => g !! s = Some (Level level)) STBY_PINS.

(** What can happen to the robot, each handler taken as one step: an
    iteration of the control loop, a datagram, a receiver processing its
    buffer, a transmission thread running. *)
Inductive event :=
| tick (now : Q)
| datagram (data : option message) (now : Q)
| ir_frame (bursts : list Z) (now : Q)
| thread_run (t : thread).

Definition step (r : robot) (e : event) : robot :=
  match e with
  | tick now => control_tick now r
  | datagram data now => h_robot (datagram_received data now r)
  | ir_frame bursts now => process_bursts bursts now r
  | thread_run t => run_thread t r
  end.

Definition run (es : list event) (r : robot) : robot := foldl step r es.

(** No iteration of the control loop in the trace sees the disable time of
    a hit at [t0] elapsed. *)
Definition before_expiry (t0 : Q) (e : event) : Prop :=
  match e with
  | tick now => (now - t0 < HIT_DISABLE_TIME)%Q
  | _ => True
  end.

(** The robot has been disabled by a hit at [t0] and its motor outputs
    are zero. *)
Definition disabled_since (t0 : Q) (r : robot) : Prop :=
  is_hit (laser_tag_state r) = true
  /\ hit_time (laser_tag_state r) = t0
  /\ all_motors_stopped (pi r).

(** Disabled since [t0] with the standby flag clear and the STBY pins low:
    the state a hit leaves a robot in that was not in standby. *)
Definition deenergized_since (t0 : Q) (r : robot) : Prop :=
  disabled_since t0 r /\ in_standby r = false /\ standby_pins false (pi r).

(** A disabled robot at work: ticks before the disable time is over, a
    fire request, another frame, a late thread. *)
Definition disabled_trace : list event :=
  [tick 6; datagram (Some fire_message) 7; ir_frame (team_frame 3) 8;
   thread_run fire_thread; tick (149 # 10)].

(** A robot that went into power-save standby: a datagram without input
    at 10.5 s, then the control iteration at 10.6 s. *)
Definition standby_robot : robot :=
  run [datagram (Some idle_message) (105 # 10); tick (106 # 10)] (initial_robot 0).

(** ** The rest of the receiver and of the shutdown path *)

(** The attributes of an [IRReceiver]. *)
Record receiver := {
  gpio : Z;
  bursts : list Z;
  last_tick : Z;
  last_burst_time : Q }.

(** [IRReceiver.__init__]. *)
Definition new_receiver (gpio_pin : Z) : receiver :=
  {| gpio := gpio_pin; bursts := []; last_tick := 0; last_burst_time := 0 |}.

(** [pigpio.tickDiff] of the library: the distance between two ticks of
    the 32-bit microsecond counter, the later one possibly wrapped. *)
Definition pigpio_tickDiff (t1 t2 : Z) : Z :=
  let d := t2 - t1 in if d <? 0 then d + 2 ^ 32 else d.

(** [IRReceiver.edge_callback(gpio, level, tick)].  The library function
    [tickDiff] is an argument; [current_time] is the [time.time()] of the
    first line and [clock] the one of [on_laser_hit], which at most one of
    the two calls of [process_bursts] can reach: the first needs ten
    buffered bursts, and then the buffer restarts with one. *)
Definition edge_callback (tickDiff : Z -> Z -> Z) (self : receiver)
    (level tick : Z) (current_time clock : Q) (r : robot) : receiver * robot :=
  if level =? 0 then
    ({| gpio := gpio self; bursts := bursts self; last_tick := tick;
        last_burst_time := last_burst_time self |}, r)
  else if (level =? 1) && negb (last_tick self =? 0) then
    let burst_width := tickDiff (last_tick self) tick in
    let gap := Qltb (1 # 10) (current_time - last_burst_time self) in
    let r := if gap && (0 <? Z.of_nat (length (bursts self)))
             then process_bursts (bursts self) clock r else r in
    let buffer := (if gap then [] else bursts self) ++ [burst_width] in
    if Z.of_nat (length buffer) =? 10 then
      ({| gpio := gpio self; bursts := []; last_tick := last_tick self;
          last_burst_time := current_time |},
       process_bursts buffer clock r)
    else
      ({| gpio := gpio self; bursts := buffer; last_tick := last_tick self;
          last_burst_time := current_time |}, r)
  else (self, r).

(** What [cleanup] does to the pins: [stop_all_motors()], then every STBY
    pin low. *)
Definition cleanup (g : gmap Z pin_out) : gmap Z pin_out :=
  foldl (fun g s => write s false g) (stop_all_motors g) STBY_PINS.

(** ** More vocabulary *)

(** A burst of [b] microseconds is within the tolerance of [nominal]. *)
Definition within (nominal b : Z) : Prop := Z.abs (b - nominal) <= TOLERANCE.

(** A frame [process_bursts] accepts: ten bursts, the first and the last
    within the tolerance of the start/end burst, each of the eight between
    within the tolerance of a 1 bit or of a 0 bit. *)
Definition valid_frame (frame : list Z) : Prop :=
  length frame = 10%nat
  /\ within START_END_BURST (burst_at frame 0)
  /\ within START_END_BURST (burst_at frame 9)
  /\ Forall (fun i => within BIT_1_BURST (burst_at frame i)
                      \/ within BIT_0_BURST (burst_at frame i)) (seqZ 1 8).

(** The bursts of the log as the transmitter emits them: whole carrier
    periods only. *)
Definition emitted_bursts (r : robot) : list Z :=
  map (fun b => cycles b * CARRIER_PERIOD_US) (ir_tx r).

(** One burst seen by a receiver: the ticks of its falling and rising
    edge and the wall-clock time of the rising edge. *)
Record pulse := { fall : Z; rise : Z; seen : Q }.

(** The two callbacks of a pulse, and those of a train of pulses. *)
Definition feed_pulse (tickDiff : Z -> Z -> Z) (clock : Q)
    (s : receiver * robot) (p : pulse) : receiver * robot :=
  let '(self, r) := edge_callback tickDiff s.1 0 (fall p) (seen p) clock s.2 in
  edge_callback tickDiff self 1 (rise p) (seen p) clock r.

Definition feed_pulses (tickDiff : Z -> Z -> Z) (clock : Q)
    (ps : list pulse) (s : receiver * robot) : receiver * robot :=
  foldl (feed_pulse tickDiff clock) s ps.

(** Every pulse of the train starts at a tick other than 0 and is seen at
    most 0.1 s after the burst before it, [prev] being the time of the
    last burst before the train. *)
Fixpoint steady (prev : Q) (ps : list pulse) : Prop :=
  match ps with
  | [] => True
  | p :: ps => fall p <> 0 /\ (seen p - prev <= 1 # 10)%Q /\ steady (seen p) ps
  end.

(** A train of pulses with the given widths, the first falling at [tick]
    and seen at [t], each following 800 us after the end of the one before
    and seen 3 ms later. *)
Fixpoint pulse_train (tick : Z) (t : Q) (widths : list Z) : list pulse :=
  match widths with
  | [] => []
  | w :: widths =>
      {| fall := tick; rise := tick + w; seen := t |}
      :: pulse_train (tick + w + 800) (t + (3 # 1000)) widths
  end.

(** The robot is in one of the states the handlers can bring it to from
    the start. *)
Definition reachable (r : robot) : Prop :=
  exists (start : Q) (es : list event), r = run es (initial_robot start).

(** The pins of a motor: never both direction pins high. *)
Definition direction_safe (g : gmap Z pin_out) (m : motor_pins) : Prop :=
  ~ (g !! IN1 m = Some (Level true) /\ g !! IN2 m = Some (Level true)).

(** What every reachable state satisfies: the cached speed is in [0, 1];
    the laser tag state has a remaining time that is not negative and an
    attacker that is a byte, and is the initial one while the robot is not
    hit; the standby flag is only set with the drivers de-energized and
    the motors stopped; a robot that is neither hit nor in standby has its
    drivers energized; no motor has both direction pins high; a robot that
    is hit has every motor output at zero. *)
Definition consistent (r : robot) : Prop :=
  (0 <= speed (state r) <= 1)%Q
  /\ (0 <= time_remaining (laser_tag_state r))%Q
  /\ 0 <= hit_by_team (laser_tag_state r) <= 255
  /\ (is_hit (laser_tag_state r) = false ->
      laser_tag_state r = initial_laser_tag_state)
  /\ (in_standby r = true ->
      standby_pins false (pi r) /\ all_motors_stopped (pi r))
  /\ (is_hit (laser_tag_state r) = false -> in_standby r = false ->
      standby_pins true (pi r))
  /\ (forall name, direction_safe (pi r) (MOTORS name))
  /\ (is_hit (laser_tag_state r) = true -> all_motors_stopped (pi r)).

(** A step that does not wake a robot in standby: any control iteration
    or thread, a buffer that is not a valid frame, and any datagram whose
    command stays inside the deadband without estop. *)
Definition quiet_event (r : robot) (e : event) : Prop :=
  match e with
  | datagram (Some msg) _ => wakes (update_state msg (state r)) = false
  | ir_frame frame _ => decode_frame frame = None
  | _ => True
  end.

Fixpoint quiet (es : list event) (r : robot) : Prop :=
  match es with
  | [] => True
  | e :: es => quiet_event r e /\ quiet es (step r e)
  end.

(** * Properties *)

(** Case analysis on every condition of a conditional in the goal. *)
Ltac case_conditions :=
  repeat match goal with
         | |- context [if ?b then _ else _] => destruct b
         end.

(** ** IR codec *)

Lemma land_shiftr_1 (id n : Z) :
  0 <= n -> Z.land (Z.shiftr id n) 1 = if Z.testbit id n then 1 else 0.
Proof.
  intros Hn. rewrite Z.land_comm.
  change 1 with (Z.ones 1) at 1. rewrite Z.land_comm, Z.land_ones by lia.
  rewrite <- Z.bit0_mod, Z.shiftr_spec, Z.add_0_l by lia.
  destruct (Z.testbit id n); reflexivity.
Qed.

Lemma send_ir_burst_log (us : Z) (r : robot) :
  sent_bursts (send_ir_burst us r) = sent_bursts r ++ [us].
Proof. unfold sent_bursts, send_ir_burst. simpl. by rewrite map_app. Qed.

Lemma send_ir_bit_log (id i : Z) (r : robot) :
  0 <= 7 - i ->
  sent_bursts (send_ir_bit (Z.land (Z.shiftr id (7 - i)) 1) r)
  = sent_bursts r ++ [bit_burst id i].
Proof.
  intros Hi. rewrite land_shiftr_1 by assumption.
  unfold bit_burst, send_ir_bit.
  destruct (Z.testbit id (7 - i)); simpl; apply send_ir_burst_log.
Qed.

Lemma send_team_id_log (id : Z) (r : robot) :
  is_hit (laser_tag_state r) = false ->
  sent_bursts (send_team_id id r) = sent_bursts r ++ team_frame id.
Proof.
  intros Hhit. unfold send_team_id. rewrite Hhit.
  change (seqZ 0 8) with [0; 1; 2; 3; 4; 5; 6; 7]. cbn [foldl].
  rewrite send_ir_burst_log.
  repeat (rewrite send_ir_bit_log by lia).
  rewrite send_ir_burst_log.
  unfold team_frame. change (seqZ 0 8) with [0; 1; 2; 3; 4; 5; 6; 7].
  cbn [map]. rewrite <- !app_assoc. reflexivity.
Qed.

Lemma frame_sent_eq (id : Z) (r : robot) :
  is_hit (laser_tag_state r) = false -> frame_sent id r = team_frame id.
Proof.
  intros Hhit. unfold frame_sent. rewrite send_team_id_log by assumption.
  rewrite <- (length_map burst_us). apply drop_app_length.
Qed.

(** A property of team ids that can be decided holds on all of [0..255]
    once it has been evaluated on each of them. *)
Lemma all_team_ids (P : Z -> Prop) `{!∀ id, Decision (P id)} :
  bool_decide (Forall P (seqZ 0 256)) = true -> ∀ id, 0 <= id <= 255 -> P id.
Proof.
  intros Hall id Hid. apply bool_decide_eq_true in Hall.
  rewrite Forall_forall in Hall. apply Hall, elem_of_seqZ. lia.
Qed.

Lemma decode_team_frame (id : Z) :
  0 <= id <= 255 -> decode_frame (team_frame id) = Some id.
Proof.
  revert id. apply (all_team_ids (fun id => decode_frame (team_frame id) = Some id)).
  vm_compute. reflexivity.
Qed.

Lemma on_laser_hit_fresh (id : Z) (now : Q) (r : robot) :
  is_hit (laser_tag_state r) = false ->
  laser_tag_state (on_laser_hit id now r)
  = {| is_hit := true; hit_by_team := id; hit_time := now;
       time_remaining := HIT_DISABLE_TIME;
       is_self_hit := id =? team_id (state r) |}.
Proof.
  intros Hhit. unfold on_laser_hit. rewrite Hhit.
  destruct (id =? team_id (state r)); reflexivity.
Qed.

(** C1 (round trip).  For every team id in 0..255, the ten bursts that
    [send_team_id] sends (start burst, bit 7 first, end burst), fed with
    their exact durations to [process_bursts], reach [on_laser_hit] with
    the original id; on a receiver that is not already hit the recorded
    hit carries that id, and it is flagged as a self hit exactly when the
    id is the receiver's own team id. *)
Theorem ir_round_trip (id : Z) (now : Q) (tx rx : robot) :
  0 <= id <= 255 ->
  is_hit (laser_tag_state tx) = false ->
  is_hit (laser_tag_state rx) = false ->
  let frame := frame_sent id tx in
  let rx' := process_bursts frame now rx in
  length frame = 10%nat
  /\ decode_frame frame = Some id
  /\ rx' = on_laser_hit id now rx
  /\ is_hit (laser_tag_state rx') = true
  /\ hit_by_team (laser_tag_state rx') = id
  /\ (is_self_hit (laser_tag_state rx') = true <-> id = team_id (state rx)).
Proof.
  intros Hid Htx Hrx frame rx'. subst rx' frame.
  rewrite frame_sent_eq by assumption.
  unfold process_bursts. rewrite decode_team_frame by assumption.
  rewrite on_laser_hit_fresh by assumption. cbn [is_hit hit_by_team is_self_hit].
  repeat split; try reflexivity; apply Z.eqb_eq.
Qed.

Lemma ir_round_trip_witness :
  let rx' := process_bursts (frame_sent 165 (initial_robot 0)) 3 (initial_robot 0) in
  hit_by_team (laser_tag_state rx') = 165
  /\ (is_self_hit (laser_tag_state rx') = true <-> 165 = 1).
Proof.
  pose proof (ir_round_trip 165 3 (initial_robot 0) (initial_robot 0)
                ltac:(lia) eq_refl eq_refl) as H.
  cbv zeta in H. cbv zeta. tauto.
Defined.

Lemma boundary_frames (id i : Z) :
  0 <= id <= 255 -> 1 <= i <= 8 ->
  decode_frame (frame_with id i 1000) = Some (Z.clearbit id (7 - (i - 1)))
  /\ decode_frame (frame_with id i 1001) = None.
Proof.
  intros Hid Hi. revert id Hid.
  pose (P := fun id i =>
    decode_frame (frame_with id i 1000) = Some (Z.clearbit id (7 - (i - 1)))
    /\ decode_frame (frame_with id i 1001) = None).
  cut (∀ id, 0 <= id <= 255 -> Forall (P id) (seqZ 1 8)).
  { intros Hall id Hid. specialize (Hall id Hid).
    rewrite Forall_forall in Hall. apply Hall, elem_of_seqZ. lia. }
  apply (all_team_ids (fun id => Forall (P id) (seqZ 1 8))).
  vm_compute. reflexivity.
Qed.

(** C4 (tolerance boundary).  In a frame whose other nine bursts are exact,
    an interior burst of exactly 1000 us is read as a 0 bit and the frame
    is delivered (the id of the frame with that bit cleared reaches
    [on_laser_hit]); an interior burst of 1001 us matches neither bit
    within the tolerance, so [process_bursts] delivers no hit and leaves
    the robot as it was. *)
Theorem tolerance_boundary (id i : Z) (now : Q) (r : robot) :
  0 <= id <= 255 -> 1 <= i <= 8 ->
  (Z.abs (1000 - BIT_0_BURST) <=? TOLERANCE) = true
  /\ (Z.abs (1001 - BIT_0_BURST) <=? TOLERANCE) = false
  /\ (Z.abs (1001 - BIT_1_BURST) <=? TOLERANCE) = false
  /\ decode_frame (frame_with id i 1000) = Some (Z.clearbit id (7 - (i - 1)))
  /\ process_bursts (frame_with id i 1000) now r
     = on_laser_hit (Z.clearbit id (7 - (i - 1))) now r
  /\ decode_frame (frame_with id i 1001) = None
  /\ process_bursts (frame_with id i 1001) now r = r.
Proof.
  intros Hid Hi. destruct (boundary_frames id i Hid Hi) as [H0 H1].
  unfold process_bursts. rewrite H0, H1. repeat split; reflexivity.
Qed.

Lemma tolerance_boundary_witness :
  decode_frame (frame_with 255 3 1000) = Some 223
  /\ process_bursts (frame_with 255 3 1001) 0 (initial_robot 0) = initial_robot 0.
Proof.
  pose proof (tolerance_boundary 255 3 0 (initial_robot 0) ltac:(lia) ltac:(lia))
    as (_ & _ & _ & H0 & _ & _ & H1).
  split; [exact H0 | exact H1].
Defined.

(** ** Firing and hits while disabled *)

(** C7 (a hit while disabled is ignored).  In every state in which
    [is_hit] is already set, [on_laser_hit] with any attacking team, at any
    time, returns the state it was given: the laser tag state, its timer
    and everything else are unchanged, and so a frame decoded by
    [process_bursts] changes nothing either. *)
Theorem hit_while_disabled_ignored (id : Z) (now : Q) (bursts : list Z) (r : robot) :
  is_hit (laser_tag_state r) = true ->
  on_laser_hit id now r = r
  /\ laser_tag_state (on_laser_hit id now r) = laser_tag_state r
  /\ process_bursts bursts now r = r.
Proof.
  intros Hhit. assert (H : ∀ id, on_laser_hit id now r = r).
  { intros id'. unfold on_laser_hit. by rewrite Hhit. }
  split; [apply H|]. split; [by rewrite H|].
  unfold process_bursts. destruct (decode_frame bursts); [apply H | reflexivity].
Qed.

Lemma hit_while_disabled_ignored_witness :
  let r := on_laser_hit 2 5 (initial_robot 0) in
  on_laser_hit 7 9 r = r.
Proof.
  exact (proj1 (hit_while_disabled_ignored 7 9 []
                  (on_laser_hit 2 5 (initial_robot 0)) eq_refl)).
Defined.

(** C8 (no fire while disabled).  While the laser tag state says the robot
    is hit, [send_team_id] returns at once and adds nothing to what was
    sent on the transmit pin, and the datagram handler starts no
    transmission thread, whatever the datagram says (in particular with
    fire set); a thread started earlier that only runs now sends nothing
    either. *)
Theorem fire_suppressed_while_hit
    (id : Z) (data : option message) (now : Q) (r : robot) :
  is_hit (laser_tag_state r) = true ->
  send_team_id id r = r
  /\ ir_tx (send_team_id id r) = ir_tx r
  /\ h_threads (datagram_received data now r) = []
  /\ ir_tx (h_robot (datagram_received data now r)) = ir_tx r
  /\ run_thread fire_thread r = r.
Proof.
  intros Hhit. assert (H : ∀ id, send_team_id id r = r).
  { intros id'. unfold send_team_id. by rewrite Hhit. }
  rewrite H. repeat split; try apply H.
  - destruct data as [msg|]; [|reflexivity]. cbn. rewrite Hhit.
    by rewrite andb_false_r.
  - by destruct data.
Qed.

Lemma fire_suppressed_while_hit_witness :
  let r := on_laser_hit 2 5 (initial_robot 0) in
  send_team_id 1 r = r
  /\ h_threads (datagram_received (Some fire_message) 6 r) = [].
Proof.
  pose proof (fire_suppressed_while_hit 1 (Some fire_message) 6
                (on_laser_hit 2 5 (initial_robot 0)) eq_refl) as (H1 & _ & H2 & _).
  split; [exact H1 | exact H2].
Defined.

(** The same datagram on a robot that is not hit does start the thread,
    and the thread sends the ten bursts of the robot's team id. *)
Lemma fire_dispatched_when_not_hit :
  let h := datagram_received (Some fire_message) 6 (initial_robot 0) in
  h_threads h = [fire_thread]
  /\ sent_bursts (run_thread fire_thread (h_robot h)) = team_frame 1.
Proof. split; reflexivity. Qed.

(** ** Arithmetic helpers *)

Lemma Qltb_lt (x y : Q) : Qltb x y = true <-> (x < y)%Q.
Proof.
  unfold Qltb. rewrite negb_true_iff, <- not_true_iff_false, Qle_bool_iff.
  split; [apply Qnot_le_lt | apply Qlt_not_le].
Qed.

Lemma Qltb_ge (x y : Q) : Qltb x y = false <-> (y <= x)%Q.
Proof. unfold Qltb. rewrite negb_false_iff. apply Qle_bool_iff. Qed.

#[local] Instance Qltb_proper : Proper (Qeq ==> Qeq ==> eq) Qltb.
Proof. intros x x' Hx y y' Hy. unfold Qltb. by rewrite Hx, Hy. Qed.

Lemma py_max_cases (a b : Q) :
  (a < b /\ py_max a b = b)%Q \/ (b <= a /\ py_max a b = a)%Q.
Proof.
  unfold py_max. destruct (Qltb a b) eqn:E.
  - left. by apply Qltb_lt in E.
  - right. by apply Qltb_ge in E.
Qed.

Lemma py_min_cases (a b : Q) :
  (b < a /\ py_min a b = b)%Q \/ (a <= b /\ py_min a b = a)%Q.
Proof.
  unfold py_min. destruct (Qltb b a) eqn:E.
  - left. by apply Qltb_lt in E.
  - right. by apply Qltb_ge in E.
Qed.

#[local] Instance py_max_proper : Proper (Qeq ==> Qeq ==> Qeq) py_max.
Proof.
  intros a a' Ha b b' Hb. unfold py_max. rewrite Ha, Hb.
  by destruct (Qltb a' b').
Qed.

#[local] Instance py_min_proper : Proper (Qeq ==> Qeq ==> Qeq) py_min.
Proof.
  intros a a' Ha b b' Hb. unfold py_min. rewrite Ha, Hb.
  by destruct (Qltb b' a').
Qed.

Lemma py_max_lub (a b : Q) : (a <= py_max a b /\ b <= py_max a b)%Q.
Proof.
  destruct (py_max_cases a b) as [[H ->]|[H ->]]; split;
    auto using Qle_refl, Qlt_le_weak.
Qed.

(** [clamp] keeps a value that is already between the bounds, and always
    lands between them. *)
Lemma clamp_inside (v lo hi : Q) : (lo <= v <= hi)%Q -> (clamp v lo hi == v)%Q.
Proof.
  intros [Hlo Hhi]. unfold clamp.
  destruct (py_min_cases hi v) as [[H ->]|[H ->]];
    [destruct (py_max_cases lo v) as [[H' ->]|[H' ->]]
    |destruct (py_max_cases lo hi) as [[H' ->]|[H' ->]]]; lra.
Qed.

Lemma clamp_bounds (v lo hi : Q) : (lo <= hi)%Q -> (lo <= clamp v lo hi <= hi)%Q.
Proof.
  intros Hle. unfold clamp.
  destruct (py_min_cases hi v) as [[H ->]|[H ->]];
    [destruct (py_max_cases lo v) as [[H' ->]|[H' ->]]
    |destruct (py_max_cases lo hi) as [[H' ->]|[H' ->]]]; lra.
Qed.

#[local] Instance clamp_proper : Proper (Qeq ==> Qeq ==> Qeq ==> Qeq) clamp.
Proof. intros v v' Hv lo lo' Hlo hi hi' Hhi. unfold clamp. by rewrite Hv, Hlo, Hhi. Qed.

(** On a value that is not negative [int] is the floor, so it does not
    depend on how the rational is written. *)
Lemma py_int_floor (x : Q) : (0 <= x)%Q -> py_int x = Qfloor x.
Proof.
  destruct x as [n d]. unfold Qle, py_int, Qfloor. simpl. intros Hn.
  apply Z.quot_div_nonneg; lia.
Qed.

Lemma py_int_proper (x y : Q) : (0 <= x)%Q -> (x == y)%Q -> py_int x = py_int y.
Proof.
  intros Hx Hxy. rewrite !py_int_floor by lra. by rewrite Hxy.
Qed.

(** ** Drive kinematics *)

Lemma mecanum_scale_bounds (w : wheels) :
  let s := mecanum_scale w in
  (1 <= s /\ Qabs (fl w) <= s /\ Qabs (fr w) <= s
   /\ Qabs (rl w) <= s /\ Qabs (rr w) <= s)%Q.
Proof.
  unfold mecanum_scale. cbn [foldl].
  set (m1 := py_max 1 (Qabs (fl w))).
  set (m2 := py_max m1 (Qabs (fr w))).
  set (m3 := py_max m2 (Qabs (rl w))).
  destruct (py_max_lub 1 (Qabs (fl w))) as [? ?].
  destruct (py_max_lub m1 (Qabs (fr w))) as [? ?].
  destruct (py_max_lub m2 (Qabs (rl w))) as [? ?].
  destruct (py_max_lub m3 (Qabs (rr w))) as [? ?].
  fold m1 in H, H0. fold m2 in H1, H2. fold m3 in H3, H4.
  cbv zeta. repeat split; lra.
Qed.

(** The scale is one of the five values it is the maximum of. *)
Lemma mecanum_scale_attained (w : wheels) :
  let s := mecanum_scale w in
  s = 1%Q \/ s = Qabs (fl w) \/ s = Qabs (fr w)
  \/ s = Qabs (rl w) \/ s = Qabs (rr w).
Proof.
  unfold mecanum_scale, py_max. cbn [foldl]. cbv zeta.
  case_conditions; tauto.
Qed.

Lemma normalized_le_1 (x s : Q) : (1 <= s)%Q -> (Qabs x <= s)%Q -> (Qabs (x / s) <= 1)%Q.
Proof.
  intros Hs Hx. apply Qabs_Qle_condition in Hx as [Hlo Hhi].
  apply Qabs_Qle_condition. split.
  - apply Qle_shift_div_l; lra.
  - apply Qle_shift_div_r; lra.
Qed.

Lemma scaled_le (x m : Q) : (Qabs x <= 1)%Q -> (Qabs (x * m) <= Qabs m)%Q.
Proof.
  intros Hx. rewrite Qabs_Qmult. apply Qle_trans with (1 * Qabs m)%Q.
  - apply Qmult_le_compat_r; [assumption | apply Qabs_nonneg].
  - rewrite Qmult_1_l. apply Qle_refl.
Qed.

(** C2, as stated, fails: with [vx = 1] and no strafe or rotation the rear
    right wheel of [drive_mecanum] gets [+1] before normalisation and as
    its final value, whereas the printed equation [rr = vy - vx - omega]
    gives [-1]. *)
Lemma mecanum_reference_rr_differs :
  (rr (mecanum_mix 1 0 0) == 1)%Q
  /\ (rr (reference_mix 1 0 0) == - (1))%Q
  /\ (rr (mecanum_wheels 1 0 0 1) == 1)%Q
  /\ ~ wheels_eq (mecanum_mix 1 0 0) (reference_mix 1 0 0).
Proof.
  repeat split; try reflexivity.
  intros (_ & _ & _ & H). vm_compute in H. discriminate.
Qed.

(** C2 (amended).  For every [vx], [vy], [omega] and [max_speed] the values
    before normalisation are [fl = vy + vx + omega], [fr = -vy + vx - omega],
    [rl = -vy + vx + omega] and [rr = vy + vx - omega]; the scale is the
    maximum of 1 and their four magnitudes; each wheel value is its mix
    divided by the scale and multiplied by [max_speed]; no normalised
    channel exceeds unit magnitude and no final channel exceeds the
    magnitude of [max_speed]. *)
Theorem mecanum_kinematics (vx vy omega max_speed : Q) :
  let w := mecanum_mix vx vy omega in
  let s := mecanum_scale w in
  let n := mecanum_normalized vx vy omega in
  let out := mecanum_wheels vx vy omega max_speed in
  (fl w == vy + vx + omega /\ fr w == - vy + vx - omega
   /\ rl w == - vy + vx + omega /\ rr w == vy + vx - omega)%Q
  /\ (1 <= s /\ Qabs (fl w) <= s /\ Qabs (fr w) <= s
      /\ Qabs (rl w) <= s /\ Qabs (rr w) <= s)%Q
  /\ (s = 1%Q \/ s = Qabs (fl w) \/ s = Qabs (fr w)
      \/ s = Qabs (rl w) \/ s = Qabs (rr w))
  /\ (fl out == fl w / s * max_speed /\ fr out == fr w / s * max_speed
      /\ rl out == rl w / s * max_speed /\ rr out == rr w / s * max_speed)%Q
  /\ (Qabs (fl n) <= 1 /\ Qabs (fr n) <= 1
      /\ Qabs (rl n) <= 1 /\ Qabs (rr n) <= 1)%Q
  /\ (Qabs (fl out) <= Qabs max_speed /\ Qabs (fr out) <= Qabs max_speed
      /\ Qabs (rl out) <= Qabs max_speed /\ Qabs (rr out) <= Qabs max_speed)%Q.
Proof.
  intros w s n out.
  pose proof (mecanum_scale_bounds w) as (Hs & Hfl & Hfr & Hrl & Hrr).
  fold s in Hs, Hfl, Hfr, Hrl, Hrr.
  assert (Hn : (Qabs (fl n) <= 1 /\ Qabs (fr n) <= 1
                /\ Qabs (rl n) <= 1 /\ Qabs (rr n) <= 1)%Q).
  { subst n. unfold mecanum_normalized. cbn [fl fr rl rr]. fold w. fold s.
    repeat split; by apply normalized_le_1. }
  split; [repeat split; reflexivity|].
  split; [by repeat split|].
  split; [apply mecanum_scale_attained|].
  split; [repeat split; reflexivity|].
  split; [exact Hn|].
  destruct Hn as (? & ? & ? & ?).
  subst out. unfold mecanum_wheels. fold n. cbn [fl fr rl rr].
  repeat split; by apply scaled_le.
Qed.

(** [apply_motor] does not depend on how a rational is written. *)
Lemma apply_motor_proper (name : motor) (v v' : Q) (g : gmap Z pin_out) :
  (v == v')%Q -> apply_motor name v g = apply_motor name v' g.
Proof.
  intros Hv. unfold apply_motor.
  assert (En : (clamp v (-1) 1 * DIR_OFFSET name
                == clamp v' (-1) 1 * DIR_OFFSET name)%Q) by (by rewrite Hv).
  revert En. generalize (clamp v (-1) 1 * DIR_OFFSET name)%Q.
  generalize (clamp v' (-1) 1 * DIR_OFFSET name)%Q. intros n' n En.
  assert (E1 : Qltb (Qabs n) (1 # 1000) = Qltb (Qabs n') (1 # 1000))
    by (by rewrite En).
  assert (E2 : Qltb 0 n = Qltb 0 n') by (by rewrite En).
  assert (E3 : py_int (Qabs n * 100) = py_int (Qabs n' * 100)).
  { apply py_int_proper; [|by rewrite En].
    apply Qmult_le_0_compat; [apply Qabs_nonneg | done]. }
  by rewrite E1, E2, E3.
Qed.

(** A wheel value that is zero stops its motor. *)
Lemma apply_motor_zero (name : motor) (v : Q) (g : gmap Z pin_out) :
  (v == 0)%Q -> apply_motor name v g = stop_motor (MOTORS name) g.
Proof. intros Hv. by rewrite (apply_motor_proper name v 0). Qed.

(** C3 (kinematics symmetry).  [drive_mecanum(1,0,0,1)] computes four wheel
    values that are equal and positive; [drive_mecanum(0,0,1,1)] computes
    [fl = rl] positive and [fr = rr] negative; [drive_mecanum(0,0,0,x)]
    computes four zero wheel values for every [x], and so stops every
    motor. *)
Theorem kinematics_symmetry :
  (let w := mecanum_wheels 1 0 0 1 in
   fl w == fr w /\ fr w == rl w /\ rl w == rr w /\ 0 < fl w)%Q
  /\ (let w := mecanum_wheels 0 0 1 1 in
      fl w == rl w /\ 0 < fl w /\ fr w == rr w /\ fr w < 0)%Q
  /\ (∀ x : Q,
        let w := mecanum_wheels 0 0 0 x in
        (fl w == 0 /\ fr w == 0 /\ rl w == 0 /\ rr w == 0)%Q
        /\ ∀ g, drive_mecanum 0 0 0 x g = stop_all_motors g).
Proof.
  split; [|split].
  - repeat split.
  - repeat split.
  - intros x w.
    assert (H : (fl w == 0 /\ fr w == 0 /\ rl w == 0 /\ rr w == 0)%Q).
    { subst w. unfold mecanum_wheels, mecanum_normalized.
      change (mecanum_scale (mecanum_mix 0 0 0)) with 1%Q.
      cbn [fl fr rl rr mecanum_mix]. repeat split; field. }
    split; [exact H|]. destruct H as (Hfl & Hfr & Hrl & Hrr).
    intros g. unfold drive_mecanum. fold w.
    rewrite !apply_motor_zero by assumption. reflexivity.
Qed.

(** ** Duty mapping *)

Lemma pct_range (v : Q) : (-1 <= v <= 1)%Q -> 0 <= py_int (Qabs v * 100) <= 100.
Proof.
  intros Hv. assert (Ha : (0 <= Qabs v <= 1)%Q).
  { split; [apply Qabs_nonneg | by apply Qabs_Qle_condition]. }
  destruct Ha as [Ha0 Ha1]. rewrite py_int_floor by lra. split.
  - apply (Qfloor_resp_le 0). lra.
  - apply (Qfloor_resp_le _ 100). lra.
Qed.

Lemma motor_pins_distinct (name : motor) :
  let pins := MOTORS name in
  EN pins ≠ IN1 pins /\ EN pins ≠ IN2 pins /\ IN1 pins ≠ IN2 pins.
Proof. by destruct name. Qed.

(** [apply_motor] touches the three pins of its motor and no other. *)
Lemma apply_motor_other (name : motor) (norm : Q) (g : gmap Z pin_out) (p : Z) :
  p ≠ EN (MOTORS name) -> p ≠ IN1 (MOTORS name) -> p ≠ IN2 (MOTORS name) ->
  apply_motor name norm g !! p = g !! p.
Proof.
  intros ? ? ?. unfold apply_motor, write, set_PWM_dutycycle.
  case_conditions;
    by simplify_map_eq.
Qed.

(** C5 (duty mapping).  [apply_motor] works on [v], the wheel value clamped
    to [-1, 1] (the value itself when it is normalised) times the direction
    sign, and on [pct = int(|v| * 100)], which lies in [0, 100].
    If [|v| < 1e-3] the channel is stopped: duty 0 and both direction pins
    low.  Otherwise the direction pins are set from the sign, and either
    [pct >= 80] and the enable pin is written high, with no PWM, or
    [pct < 80] and the enable pin gets the duty [max(30, pct) * 255 // 100]:
    at least the duty of the floor, [30 * 255 // 100 = 76], equal to it up
    to the floor, and [pct * 255 // 100] above it, below 255.  No other pin
    changes. *)
Theorem motor_duty_mapping (name : motor) (norm : Q) (g : gmap Z pin_out) :
  let v := (clamp norm (-1) 1 * DIR_OFFSET name)%Q in
  let pct := py_int (Qabs v * 100) in
  let pins := MOTORS name in
  let g' := apply_motor name norm g in
  ((-1 <= norm <= 1)%Q -> (v == norm)%Q)
  /\ 0 <= pct <= 100
  /\ ((Qabs v < 1 # 1000)%Q ->
      g' !! EN pins = Some (PWM 0)
      /\ g' !! IN1 pins = Some (Level false)
      /\ g' !! IN2 pins = Some (Level false))
  /\ ((1 # 1000 <= Qabs v)%Q ->
      g' !! IN1 pins = Some (Level (Qltb 0 v))
      /\ g' !! IN2 pins = Some (Level (negb (Qltb 0 v)))
      /\ (PURE_DC_THRESHOLD <= pct -> g' !! EN pins = Some (Level true))
      /\ (pct < PURE_DC_THRESHOLD ->
          let duty := Z.max MIN_DUTY_FLOOR pct * 255 / 100 in
          g' !! EN pins = Some (PWM duty)
          /\ MIN_DUTY_FLOOR * 255 / 100 <= duty < 255
          /\ (pct <= MIN_DUTY_FLOOR -> duty = 76)
          /\ (MIN_DUTY_FLOOR <= pct -> duty = pct * 255 / 100)))
  /\ (∀ p, p ≠ EN pins -> p ≠ IN1 pins -> p ≠ IN2 pins -> g' !! p = g !! p).
Proof.
  intros v pct pins g'.
  pose proof (motor_pins_distinct name) as (Hd1 & Hd2 & Hd3). fold pins in Hd1, Hd2, Hd3.
  assert (Hv : (-1 <= v <= 1)%Q).
  { subst v. unfold DIR_OFFSET. rewrite Qmult_1_r. by apply clamp_bounds. }
  split.
  { intros Hn. subst v. unfold DIR_OFFSET. rewrite Qmult_1_r. by apply clamp_inside. }
  split; [by apply pct_range|].
  subst g'. unfold apply_motor. fold v. fold pins. fold pct.
  unfold write, set_PWM_dutycycle.
  destruct (Qltb (Qabs v) (1 # 1000)) eqn:Estop.
  - apply Qltb_lt in Estop. split; [|split].
    + intros _. by simplify_map_eq.
    + intros Hge. exfalso. lra.
    + intros p ? ? ?. by simplify_map_eq.
  - apply Qltb_ge in Estop. split; [intros Hlt; exfalso; lra|].
    unfold PURE_DC_THRESHOLD, MIN_DUTY_FLOOR.
    destruct (80 <=? pct) eqn:Edc; [apply Z.leb_le in Edc | apply Z.leb_gt in Edc].
    + split.
      * intros _. destruct (Qltb 0 v); simplify_map_eq; repeat split; try done; lia.
      * intros p ? ? ?. by simplify_map_eq.
    + split.
      * intros _. destruct (Qltb 0 v); simplify_map_eq;
          (split; [done|]; split; [done|]; split; [lia|]; intros _;
           split; [done|]; split;
           [split; [apply Z.div_le_mono; lia | apply Z.div_lt_upper_bound; lia]|];
           split; intros Hp;
           [replace (30 `max` pct) with 30 by lia; reflexivity
           |replace (30 `max` pct) with pct by lia; reflexivity]).
      * intros p ? ? ?. by simplify_map_eq.
Qed.

(** The three regimes on concrete wheel values: 0.0005 stops the channel,
    0.85 writes the enable pin high, 0.5 runs it at duty 127 and 0.1 at the
    floor's duty 76. *)
Lemma motor_duty_examples :
  apply_motor A (5 # 10000) ∅ !! 18 = Some (PWM 0)
  /\ apply_motor A (85 # 100) ∅ !! 18 = Some (Level true)
  /\ apply_motor A (5 # 10) ∅ !! 18 = Some (PWM 127)
  /\ apply_motor A (- (1 # 10)) ∅ !! 18 = Some (PWM 76)
  /\ apply_motor A (- (1 # 10)) ∅ !! 23 = Some (Level false)
  /\ apply_motor A (- (1 # 10)) ∅ !! 24 = Some (Level true).
Proof. repeat split; vm_compute; reflexivity. Qed.

(** ** Session state *)

Lemma stop_all_motors_stopped (g : gmap Z pin_out) :
  all_motors_stopped (stop_all_motors g).
Proof.
  intros name. unfold stop_all_motors, MOTORS_values. cbn [map foldl].
  unfold motor_stopped, stop_motor, write, set_PWM_dutycycle.
  destruct name; cbn [MOTORS EN IN1 IN2]; by simplify_map_eq.
Qed.

Lemma stop_all_motors_STBY (g : gmap Z pin_out) (s : Z) :
  s ∈ STBY_PINS -> stop_all_motors g !! s = g !! s.
Proof.
  unfold STBY_PINS. rewrite !elem_of_cons, elem_of_nil. intros [->|[->|[]]];
  unfold stop_all_motors, MOTORS_values; cbn [map foldl];
  unfold stop_motor, write, set_PWM_dutycycle; cbn [MOTORS EN IN1 IN2];
  by simplify_map_eq.
Qed.

Lemma stop_all_motors_keeps_standby (b : bool) (g : gmap Z pin_out) :
  standby_pins b g -> standby_pins b (stop_all_motors g).
Proof.
  unfold standby_pins. rewrite !Forall_forall. intros H s Hs.
  rewrite stop_all_motors_STBY by assumption. by apply H.
Qed.

(** Writing a STBY pin leaves the motor outputs as they are. *)
Lemma write_STBY_keeps_stopped (s : Z) (b : bool) (g : gmap Z pin_out) :
  s ∈ STBY_PINS -> all_motors_stopped g -> all_motors_stopped (write s b g).
Proof.
  unfold STBY_PINS. rewrite !elem_of_cons, elem_of_nil.
  intros Hs H name. specialize (H name). revert H.
  unfold motor_stopped, write.
  destruct Hs as [->|[->|[]]]; destruct name; cbn [MOTORS EN IN1 IN2];
    intros (? & ? & ?); by simplify_map_eq.
Qed.

Lemma enter_standby_spec (g : gmap Z pin_out) :
  all_motors_stopped (enter_standby g) /\ standby_pins false (enter_standby g).
Proof.
  unfold enter_standby, STBY_PINS. cbn [foldl]. split.
  - do 2 (apply write_STBY_keeps_stopped; [set_solver|]).
    apply stop_all_motors_stopped.
  - unfold standby_pins, STBY_PINS, write. repeat constructor; by simplify_map_eq.
Qed.

Lemma exit_standby_spec (g : gmap Z pin_out) :
  standby_pins true (exit_standby g)
  /\ (all_motors_stopped g -> all_motors_stopped (exit_standby g)).
Proof.
  unfold exit_standby, STBY_PINS. cbn [foldl]. split.
  - unfold standby_pins, STBY_PINS, write. repeat constructor; by simplify_map_eq.
  - intros H. by do 2 (apply write_STBY_keeps_stopped; [set_solver|]).
Qed.

Lemma on_laser_hit_accepted (id : Z) (t0 : Q) (r : robot) :
  is_hit (laser_tag_state r) = false ->
  on_laser_hit id t0 r
  = {| pi := enter_standby (stop_all_motors (pi r));
       ir_tx := ir_tx r;
       last_cmd_time := last_cmd_time r;
       last_input_time := last_input_time r;
       in_standby := in_standby r;
       state := state r;
       laser_tag_state :=
         {| is_hit := true; hit_by_team := id; hit_time := t0;
            time_remaining := HIT_DISABLE_TIME;
            is_self_hit := id =? team_id (state r) |} |}.
Proof.
  intros Hhit. unfold on_laser_hit. rewrite Hhit.
  destruct (id =? team_id (state r)); reflexivity.
Qed.

Lemma update_timer_idle (now : Q) (r : robot) :
  is_hit (laser_tag_state r) = false -> update_timer now r = r.
Proof. intros Hhit. unfold update_timer. by rewrite Hhit. Qed.

Lemma update_timer_running (now : Q) (r : robot) :
  is_hit (laser_tag_state r) = true ->
  (now - hit_time (laser_tag_state r) < HIT_DISABLE_TIME)%Q ->
  update_timer now r
  = set_laser_tag_state
      {| is_hit := true;
         hit_by_team := hit_by_team (laser_tag_state r);
         hit_time := hit_time (laser_tag_state r);
         time_remaining :=
           py_max 0 (HIT_DISABLE_TIME - (now - hit_time (laser_tag_state r)));
         is_self_hit := is_self_hit (laser_tag_state r) |} r.
Proof.
  intros Hhit Hlt. unfold update_timer. rewrite Hhit.
  destruct (Qle_bool _ _) eqn:E; [|reflexivity].
  apply Qle_bool_iff in E. exfalso. lra.
Qed.

Lemma update_timer_expired (now : Q) (r : robot) :
  is_hit (laser_tag_state r) = true ->
  (HIT_DISABLE_TIME <= now - hit_time (laser_tag_state r))%Q ->
  update_timer now r
  = {| pi := exit_standby (pi r);
       ir_tx := ir_tx r;
       last_cmd_time := last_cmd_time r;
       last_input_time := last_input_time r;
       in_standby := false;
       state := state r;
       laser_tag_state := initial_laser_tag_state |}.
Proof.
  intros Hhit Hge. unfold update_timer. rewrite Hhit.
  apply Qle_bool_iff in Hge. by rewrite Hge.
Qed.

Lemma motor_control_hit (now : Q) (r : robot) :
  is_hit (laser_tag_state r) = true ->
  motor_control now r = set_pi (stop_all_motors (pi r)) r.
Proof. intros Hhit. unfold motor_control. by rewrite Hhit. Qed.

Lemma disabled_step (t0 : Q) (r : robot) (e : event) :
  disabled_since t0 r -> before_expiry t0 e -> disabled_since t0 (step r e).
Proof.
  intros (Hhit & Ht0 & Hstop) He. destruct e as [now|data now|bursts now|t]; cbn [step].
  - cbn [before_expiry] in He. unfold control_tick.
    rewrite update_timer_running by (by rewrite ?Ht0).
    rewrite motor_control_hit by reflexivity.
    split; [reflexivity|]. split; [assumption|]. apply stop_all_motors_stopped.
  - destruct data as [msg|]; [|done]. cbn.
    split; [assumption|]. split; [assumption|].
    destruct (in_standby r && wakes _); [by apply exit_standby_spec | assumption].
  - unfold process_bursts, on_laser_hit. rewrite Hhit. by destruct (decode_frame _).
  - destruct t. cbn. unfold send_team_id. by rewrite Hhit.
Qed.

Lemma disabled_run (t0 : Q) (es : list event) (r : robot) :
  disabled_since t0 r -> Forall (before_expiry t0) es ->
  disabled_since t0 (run es r).
Proof.
  unfold run. revert r. induction es as [|e es IH]; intros r Hr Hes; [done|].
  apply Forall_cons in Hes as [He Hes]. cbn [foldl].
  apply IH; [by apply disabled_step | assumption].
Qed.

Lemma drive_mecanum_STBY (vx vy omega max_speed : Q) (g : gmap Z pin_out) (b : bool) :
  standby_pins b g -> standby_pins b (drive_mecanum vx vy omega max_speed g).
Proof.
  unfold standby_pins, STBY_PINS, drive_mecanum. rewrite !Forall_cons.
  intros (H9 & H11 & _). by rewrite !apply_motor_other.
Qed.

Lemma motor_control_laser (now : Q) (r : robot) :
  laser_tag_state (motor_control now r) = laser_tag_state r.
Proof.
  unfold motor_control.
  case_conditions;
    reflexivity.
Qed.

(** With no hit, no estop, a fresh command and fresh input, a robot that
    is not in standby drives. *)
Lemma motor_control_drives (now : Q) (r : robot) :
  is_hit (laser_tag_state r) = false ->
  estop (state r) = false ->
  (now - last_cmd_time r <= COMMAND_TIMEOUT_S)%Q ->
  (now - last_input_time r <= POWER_SAVE_TIMEOUT_S)%Q ->
  in_standby r = false ->
  motor_control now r
  = set_pi (drive_mecanum (vx (state r)) (vy (state r)) (omega (state r))
              (speed (state r)) (pi r)) r.
Proof.
  intros Hhit Hestop Hcmd Hinput Hstandby. unfold motor_control.
  apply Qltb_ge in Hcmd, Hinput.
  by rewrite Hhit, Hestop, Hcmd, Hinput, Hstandby.
Qed.

(** C6 (hit-disable lifecycle).  A hit accepted at [t0] by a robot that is
    not hit zeroes every motor output at once and records the hit with
    10 s remaining.  Whatever happens next (control iterations before the
    disable time has elapsed, datagrams, further frames, transmission
    threads), the robot stays hit with its motors stopped, and a control
    iteration at [now] with [now - t0 < 10] recomputes the remaining time
    as [10 - (now - t0)].  The first iteration with [now - t0 >= 10]
    resets the laser tag state, clears [in_standby] and writes the STBY
    pins high; its motor logic then runs as for a robot that was never
    hit, and with no estop, a fresh command and fresh input it drives the
    wheels from the cached command. *)
Theorem hit_disable_lifecycle
    (id : Z) (t0 now : Q) (es : list event) (r : robot) :
  is_hit (laser_tag_state r) = false ->
  Forall (before_expiry t0) es ->
  let r1 := on_laser_hit id t0 r in
  let r2 := run es r1 in
  (all_motors_stopped (pi r1)
   /\ is_hit (laser_tag_state r1) = true
   /\ hit_by_team (laser_tag_state r1) = id
   /\ hit_time (laser_tag_state r1) = t0
   /\ time_remaining (laser_tag_state r1) = 10%Q)
  /\ (is_hit (laser_tag_state r2) = true /\ all_motors_stopped (pi r2))
  /\ ((now - t0 < HIT_DISABLE_TIME)%Q ->
      let r3 := control_tick now r2 in
      is_hit (laser_tag_state r3) = true
      /\ time_remaining (laser_tag_state r3)
         = py_max 0 (HIT_DISABLE_TIME - (now - t0))
      /\ (time_remaining (laser_tag_state r3) == 10 - (now - t0))%Q
      /\ all_motors_stopped (pi r3))
  /\ ((HIT_DISABLE_TIME <= now - t0)%Q ->
      let r3 := update_timer now r2 in
      let r4 := control_tick now r2 in
      laser_tag_state r3 = initial_laser_tag_state
      /\ in_standby r3 = false
      /\ standby_pins true (pi r3)
      /\ r4 = motor_control now r3
      /\ is_hit (laser_tag_state r4) = false
      /\ (estop (state r2) = false ->
          (now - last_cmd_time r2 <= COMMAND_TIMEOUT_S)%Q ->
          (now - last_input_time r2 <= POWER_SAVE_TIMEOUT_S)%Q ->
          in_standby r4 = false
          /\ standby_pins true (pi r4)
          /\ pi r4 = drive_mecanum (vx (state r2)) (vy (state r2))
                       (omega (state r2)) (speed (state r2))
                       (exit_standby (pi r2)))).
Proof.
  intros Hhit Hes r1 r2.
  assert (H1 : disabled_since t0 r1
               /\ hit_by_team (laser_tag_state r1) = id
               /\ time_remaining (laser_tag_state r1) = 10%Q).
  { subst r1. rewrite on_laser_hit_accepted by assumption.
    unfold disabled_since. cbn. repeat split; try reflexivity.
    all: apply enter_standby_spec. }
  destruct H1 as ((Hh1 & Ht1 & Hs1) & Hid1 & Hrem1).
  assert (H2 : disabled_since t0 r2).
  { subst r2. by apply disabled_run. }
  destruct H2 as (Hh2 & Ht2 & Hs2).
  split; [done|]. split; [done|]. split.
  - intros Hlt r3. subst r3. unfold control_tick.
    rewrite update_timer_running by (by rewrite ?Ht2).
    rewrite motor_control_hit by reflexivity. cbn. rewrite Ht2.
    split; [reflexivity|]. split; [reflexivity|]. split.
    + destruct (py_max_cases 0 (HIT_DISABLE_TIME - (now - t0))) as [[_ ->]|[Hle _]].
      * unfold HIT_DISABLE_TIME. reflexivity.
      * exfalso. lra.
    + apply stop_all_motors_stopped.
  - intros Hge r3 r4. subst r3 r4. unfold control_tick.
    rewrite update_timer_expired by (by rewrite ?Ht2).
    cbn [laser_tag_state in_standby pi].
    split; [reflexivity|]. split; [reflexivity|].
    split; [apply exit_standby_spec|]. split; [reflexivity|].
    split; [by rewrite motor_control_laser|].
    intros Hestop Hcmd Hinput.
    rewrite motor_control_drives by done. cbn.
    split; [reflexivity|]. split; [|reflexivity].
    apply drive_mecanum_STBY, exit_standby_spec.
Qed.

Lemma hit_disable_lifecycle_witness :
  let r2 := run disabled_trace (on_laser_hit 2 5 (initial_robot 0)) in
  is_hit (laser_tag_state r2) = true
  /\ (time_remaining (laser_tag_state (control_tick 12 r2)) == 3)%Q
  /\ is_hit (laser_tag_state (control_tick 15 r2)) = false.
Proof.
  assert (Hes : Forall (before_expiry 5) disabled_trace).
  { unfold disabled_trace. repeat constructor. }
  pose proof (hit_disable_lifecycle 2 5 12 disabled_trace (initial_robot 0)
                eq_refl Hes) as (_ & (H2 & _) & H3 & _).
  pose proof (hit_disable_lifecycle 2 5 15 disabled_trace (initial_robot 0)
                eq_refl Hes) as (_ & _ & _ & H4).
  split; [exact H2|]. split.
  - destruct (H3 eq_refl) as (_ & _ & Hrem & _). rewrite Hrem. reflexivity.
  - assert (Hge : (HIT_DISABLE_TIME <= 15 - 5)%Q) by (intros H; discriminate H).
    by destruct (H4 Hge) as (_ & _ & _ & _ & Hclear & _).
Defined.

(** ** Safety stop *)

Lemma update_timer_command (now : Q) (r : robot) :
  state (update_timer now r) = state r
  /\ last_cmd_time (update_timer now r) = last_cmd_time r.
Proof.
  unfold update_timer.
  case_conditions;
    split; reflexivity.
Qed.

(** C9 (safety stop).  On every control iteration with estop set in the
    cached command, or with more than 0.8 s since the last command, the
    motor logic is [stop_all_motors] and nothing else: every motor output
    is zero whatever the cached axes and speed are, and the standby flag,
    the STBY pins and the laser tag state are those the timer update of
    the same iteration left (those before the iteration when the robot is
    not hit). *)
Theorem safety_stop (now : Q) (r : robot) :
  estop (state r) = true \/ (COMMAND_TIMEOUT_S < now - last_cmd_time r)%Q ->
  let r1 := update_timer now r in
  let r' := control_tick now r in
  all_motors_stopped (pi r')
  /\ r' = set_pi (stop_all_motors (pi r1)) r1
  /\ in_standby r' = in_standby r1
  /\ laser_tag_state r' = laser_tag_state r1
  /\ (∀ b, standby_pins b (pi r1) -> standby_pins b (pi r'))
  /\ (is_hit (laser_tag_state r) = false ->
      in_standby r' = in_standby r
      /\ laser_tag_state r' = laser_tag_state r
      /\ state r' = state r
      /\ ∀ b, standby_pins b (pi r) -> standby_pins b (pi r')).
Proof.
  intros Hstop r1 r'.
  destruct (update_timer_command now r) as [Hst Hcmd]. fold r1 in Hst, Hcmd.
  assert (E : r' = set_pi (stop_all_motors (pi r1)) r1).
  { subst r'. unfold control_tick. fold r1. unfold motor_control.
    rewrite Hst, Hcmd. destruct Hstop as [-> | Hlate].
    - by rewrite orb_true_r.
    - apply Qltb_lt in Hlate. rewrite Hlate. by rewrite !orb_true_r. }
  rewrite E. cbn [pi set_pi in_standby laser_tag_state state].
  split; [apply stop_all_motors_stopped|]. split; [reflexivity|].
  split; [reflexivity|]. split; [reflexivity|].
  split; [intros b; apply stop_all_motors_keeps_standby|].
  intros Hhit. subst r1. rewrite update_timer_idle by assumption.
  repeat split. intros b. apply stop_all_motors_keeps_standby.
Qed.

Lemma safety_stop_witness :
  let r := h_robot (datagram_received (Some forward_message) 1 (initial_robot 0)) in
  (vx (state r) == 1)%Q
  /\ pi (control_tick (15 # 10) r) !! 18 = Some (Level true)
  /\ all_motors_stopped (pi (control_tick 2 r)).
Proof.
  split; [reflexivity|]. split; [vm_compute; reflexivity|].
  refine (proj1 (safety_stop 2
    (h_robot (datagram_received (Some forward_message) 1 (initial_robot 0))) _)).
  right. reflexivity.
Defined.

(** ** De-energizing the drivers on a hit *)

Lemma deenergized_step (t0 : Q) (r : robot) (e : event) :
  deenergized_since t0 r -> before_expiry t0 e -> deenergized_since t0 (step r e).
Proof.
  intros (Hd & Hflag & Hpins) He. split; [by apply disabled_step|].
  destruct Hd as (Hhit & Ht0 & _).
  destruct e as [now|data now|bursts now|t]; cbn [step].
  - cbn [before_expiry] in He. unfold control_tick.
    rewrite update_timer_running by (by rewrite ?Ht0).
    rewrite motor_control_hit by reflexivity. cbn.
    split; [assumption | by apply stop_all_motors_keeps_standby].
  - destruct data as [msg|]; [|done]. cbn. by rewrite Hflag.
  - unfold process_bursts, on_laser_hit. rewrite Hhit. by destruct (decode_frame _).
  - destruct t. cbn. unfold send_team_id. by rewrite Hhit.
Qed.

Lemma deenergized_run (t0 : Q) (es : list event) (r : robot) :
  deenergized_since t0 r -> Forall (before_expiry t0) es ->
  deenergized_since t0 (run es r).
Proof.
  unfold run. revert r. induction es as [|e es IH]; intros r Hr Hes; [done|].
  apply Forall_cons in Hes as [He Hes]. cbn [foldl].
  apply IH; [by apply deenergized_step | assumption].
Qed.

(** C10, as stated, fails on a robot hit while in power-save standby: the
    hit is accepted and the STBY pins are written low, but [in_standby]
    is still true afterwards, and one second later a datagram that only
    asserts estop, with every axis at zero, writes the STBY pins high
    again although the robot is still hit and the timer has not expired. *)
Lemma hit_in_standby_reenergized_by_estop :
  let r1 := process_bursts (team_frame 2) 11 standby_robot in
  let r2 := h_robot (datagram_received (Some estop_message) 12 r1) in
  is_hit (laser_tag_state standby_robot) = false
  /\ is_hit (laser_tag_state r1) = true
  /\ pi r1 !! 9 = Some (Level false) /\ pi r1 !! 11 = Some (Level false)
  /\ in_standby r1 = true
  /\ (vx (state r2) == 0 /\ vy (state r2) == 0 /\ omega (state r2) == 0)%Q
  /\ is_hit (laser_tag_state r2) = true
  /\ (12 - hit_time (laser_tag_state r2) < HIT_DISABLE_TIME)%Q
  /\ pi r2 !! 9 = Some (Level true) /\ pi r2 !! 11 = Some (Level true).
Proof. repeat split; vm_compute; reflexivity. Qed.

(** C10 (amended).  Every accepted hit de-energizes the motor drivers in
    the same callback: [on_laser_hit] calls [enter_standby], so both STBY
    pins are low and every motor output is zero afterwards, and the
    [in_standby] flag is left as it was.  If the flag was clear, the pins
    stay low and the flag stays clear until a control iteration sees the
    disable time elapsed.  In general, while the robot is hit, a step that
    ends with the STBY pins no longer both low is either the control
    iteration at which the disable timer expires, or a datagram received
    with [in_standby] set whose command is above the deadband on some axis
    or asserts estop. *)
Theorem hit_deenergizes_drivers (id : Z) (t0 : Q) (es : list event) (r : robot) :
  is_hit (laser_tag_state r) = false ->
  Forall (before_expiry t0) es ->
  let r1 := on_laser_hit id t0 r in
  (standby_pins false (pi r1)
   /\ all_motors_stopped (pi r1)
   /\ in_standby r1 = in_standby r)
  /\ (in_standby r = false ->
      standby_pins false (pi (run es r1)) /\ in_standby (run es r1) = false)
  /\ (∀ (r2 : robot) (e : event),
        is_hit (laser_tag_state r2) = true ->
        standby_pins false (pi r2) ->
        ¬ standby_pins false (pi (step r2 e)) ->
        (∃ now, e = tick now
                /\ (HIT_DISABLE_TIME <= now - hit_time (laser_tag_state r2))%Q)
        \/ (∃ msg now, e = datagram (Some msg) now
                       /\ in_standby r2 = true
                       /\ wakes (update_state msg (state r2)) = true)).
Proof.
  intros Hhit Hes r1.
  assert (H1 : disabled_since t0 r1 /\ standby_pins false (pi r1)
               /\ in_standby r1 = in_standby r).
  { subst r1. rewrite on_laser_hit_accepted by assumption.
    unfold disabled_since. cbn. repeat split; try reflexivity.
    all: apply enter_standby_spec. }
  destruct H1 as (Hd1 & Hp1 & Hf1).
  split; [split; [assumption | split; [apply Hd1 | assumption]]|].
  split.
  - intros Hclear.
    destruct (deenergized_run t0 es r1) as (_ & Hflag & Hpins); [|assumption|done].
    split; [assumption|]. split; [congruence | assumption].
  - clear. intros r2 e Hhit Hlow Hup.
    destruct e as [now|data now|bursts now|t]; cbn [step] in Hup.
    + destruct (Qlt_le_dec (now - hit_time (laser_tag_state r2)) HIT_DISABLE_TIME)
        as [Hlt|Hge]; [|left; eauto].
      exfalso. apply Hup. unfold control_tick.
      rewrite update_timer_running by assumption.
      rewrite motor_control_hit by reflexivity. cbn.
      by apply stop_all_motors_keeps_standby.
    + destruct data as [msg|]; [|done]. cbn in Hup.
      destruct (in_standby r2) eqn:Hflag; [|done].
      destruct (wakes (update_state msg (state r2))) eqn:Hwake; [|done].
      right. eauto.
    + exfalso. apply Hup. unfold process_bursts, on_laser_hit. rewrite Hhit.
      by destruct (decode_frame _).
    + exfalso. apply Hup. destruct t. cbn. unfold send_team_id. by rewrite Hhit.
Qed.

Lemma hit_deenergizes_drivers_witness :
  let r1 := on_laser_hit 2 5 (initial_robot 0) in
  standby_pins false (pi r1)
  /\ standby_pins false (pi (run disabled_trace r1))
  /\ in_standby (run disabled_trace r1) = false.
Proof.
  assert (Hes : Forall (before_expiry 5) disabled_trace).
  { unfold disabled_trace. repeat constructor. }
  pose proof (hit_deenergizes_drivers 2 5 disabled_trace (initial_robot 0)
                eq_refl Hes) as ((H1 & _) & H2 & _).
  split; [exact H1 | exact (H2 eq_refl)].
Defined.

(** * Beyond the stated properties *)

(** ** Which frames are accepted *)

Lemma within_dec (nominal b : Z) :
  (Z.abs (b - nominal) <=? TOLERANCE) = true <-> within nominal b.
Proof. unfold within. apply Z.leb_le. Qed.

(** The loop fails as soon as one visited burst is in neither window, and
    otherwise returns some id. *)
Lemma decode_bits_some (idx : list Z) (frame : list Z) (acc : Z) :
  is_Some (decode_bits idx frame acc)
  <-> Forall (fun i => within BIT_1_BURST (burst_at frame i)
                       \/ within BIT_0_BURST (burst_at frame i)) idx.
Proof.
  revert acc. induction idx as [|i idx IH]; intros acc; cbn [decode_bits].
  - split; [constructor | by eexists].
  - rewrite Forall_cons, <- !within_dec.
    destruct (Z.abs (burst_at frame i - BIT_1_BURST) <=? TOLERANCE);
      [rewrite IH; tauto|].
    destruct (Z.abs (burst_at frame i - BIT_0_BURST) <=? TOLERANCE);
      [rewrite IH; tauto|].
    split; [intros [? [=]] | intros [[[=]|[=]] _]].
Qed.

(** X2: a frame is delivered to [on_laser_hit] exactly when it is valid;
    any other buffer leaves the robot untouched. *)
Theorem frame_accepted_iff_valid (frame : list Z) (now : Q) (r : robot) :
  (is_Some (decode_frame frame) <-> valid_frame frame)
  /\ (~ valid_frame frame -> process_bursts frame now r = r).
Proof.
  assert (H : is_Some (decode_frame frame) <-> valid_frame frame).
  { unfold decode_frame, valid_frame, within.
    destruct (Z.of_nat (length frame) =? 10) eqn:Elen; cbn [negb];
      [apply Z.eqb_eq in Elen | apply Z.eqb_neq in Elen].
    2:{ split; [intros [? [=]] | intros [? _]; lia]. }
    destruct (TOLERANCE <? Z.abs (burst_at frame 0 - START_END_BURST)) eqn:E0;
      [apply Z.ltb_lt in E0 | apply Z.ltb_ge in E0]; cbn [orb].
    { split; [intros [? [=]] | intros (_ & ? & _); lia]. }
    destruct (TOLERANCE <? Z.abs (burst_at frame 9 - START_END_BURST)) eqn:E9;
      [apply Z.ltb_lt in E9 | apply Z.ltb_ge in E9].
    { split; [intros [? [=]] | intros (_ & _ & ? & _); lia]. }
    rewrite decode_bits_some. unfold within. split; [|tauto].
    intros Hall. repeat split; try assumption. lia. }
  split; [exact H|]. intros Hbad. unfold process_bursts.
  destruct (decode_frame frame) eqn:E; [|reflexivity].
  exfalso. apply Hbad, H. by eexists.
Qed.

(** Whatever the bursts, the loop only ever sets bits 0 to 7. *)
Lemma decode_bits_low (idx : list Z) (frame : list Z) (acc id : Z) :
  Forall (fun i => 1 <= i <= 8) idx ->
  Z.land acc 255 = acc ->
  decode_bits idx frame acc = Some id ->
  Z.land id 255 = id.
Proof.
  revert acc. induction idx as [|i idx IH]; intros acc Hidx Hacc; cbn [decode_bits].
  - by intros [= <-].
  - apply Forall_cons in Hidx as [Hi Hidx].
    destruct (Z.abs (burst_at frame i - BIT_1_BURST) <=? TOLERANCE).
    + apply IH; [assumption|].
      rewrite Z.land_lor_distr_l, Hacc. f_equal.
      assert (Hcases : i = 1 \/ i = 2 \/ i = 3 \/ i = 4 \/ i = 5 \/ i = 6
                       \/ i = 7 \/ i = 8) by lia.
      destruct Hcases as [->|[->|[->|[->|[->|[->|[->| ->]]]]]]]; reflexivity.
    + destruct (Z.abs (burst_at frame i - BIT_0_BURST) <=? TOLERANCE); [|done].
      by apply IH.
Qed.

Lemma decode_frame_byte (frame : list Z) (id : Z) :
  decode_frame frame = Some id -> 0 <= id <= 255.
Proof.
  unfold decode_frame. intros H.
  destruct (negb _); [done|]. destruct (_ || _); [done|].
  apply decode_bits_low in H; [| |reflexivity].
  - change 255 with (Z.ones 8) in H. rewrite Z.land_ones in H by lia.
    pose proof (Z.mod_pos_bound id (2 ^ 8)). lia.
  - change (seqZ 1 8) with [1; 2; 3; 4; 5; 6; 7; 8]. repeat constructor; lia.
Qed.

(** X1: an id that [process_bursts] hands to [on_laser_hit] is a byte,
    whatever the ten bursts were. *)
Theorem decoded_id_is_byte (frame : list Z) (id : Z) (now : Q) (r : robot) :
  decode_frame frame = Some id ->
  0 <= id <= 255 /\ process_bursts frame now r = on_laser_hit id now r.
Proof.
  intros H. split; [by apply (decode_frame_byte frame)|].
  unfold process_bursts. by rewrite H.
Qed.

Lemma decoded_id_is_byte_witness :
  decode_frame [2300; 1500; 700; 1700; 900; 800; 1600; 1600; 1000; 2600] = Some 166
  /\ 0 <= 166 <= 255.
Proof.
  split; [reflexivity|].
  exact (proj1 (decoded_id_is_byte
                  [2300; 1500; 700; 1700; 900; 800; 1600; 1600; 1000; 2600] 166
                  0 (initial_robot 0) eq_refl)).
Defined.

(** ** Round trips under jitter, carrier quantisation and wide ids *)

(** The loop reads two buffers alike when, at every visited index, they
    fall in the same windows. *)
Lemma decode_bits_same_class (idx : list Z) (frame frame' : list Z) (acc : Z) :
  Forall (fun i =>
    (Z.abs (burst_at frame i - BIT_1_BURST) <=? TOLERANCE)
    = (Z.abs (burst_at frame' i - BIT_1_BURST) <=? TOLERANCE)
    /\ (Z.abs (burst_at frame i - BIT_0_BURST) <=? TOLERANCE)
       = (Z.abs (burst_at frame' i - BIT_0_BURST) <=? TOLERANCE)) idx ->
  decode_bits idx frame acc = decode_bits idx frame' acc.
Proof.
  revert acc. induction idx as [|i idx IH]; intros acc Hidx; [done|].
  apply Forall_cons in Hidx as [[E1 E0] Hidx]. cbn [decode_bits]. cbv zeta.
  rewrite E1, E0. by rewrite !(IH _ Hidx).
Qed.

Lemma within_same_class (nominal b : Z) :
  nominal = BIT_0_BURST \/ nominal = BIT_1_BURST ->
  within nominal b ->
  (Z.abs (b - BIT_1_BURST) <=? TOLERANCE)
  = (Z.abs (nominal - BIT_1_BURST) <=? TOLERANCE)
  /\ (Z.abs (b - BIT_0_BURST) <=? TOLERANCE)
     = (Z.abs (nominal - BIT_0_BURST) <=? TOLERANCE).
Proof.
  unfold within, BIT_0_BURST, BIT_1_BURST, TOLERANCE.
  intros [-> | ->] Hb; split;
    (destruct (Z.leb_spec (Z.abs (b - 1600)) 200);
     destruct (Z.leb_spec (Z.abs (b - 800)) 200); try reflexivity; lia).
Qed.

Lemma bit_burst_cases (id i : Z) :
  bit_burst id i = BIT_0_BURST \/ bit_burst id i = BIT_1_BURST.
Proof. unfold bit_burst. destruct (Z.testbit id (7 - i)); auto. Qed.

Lemma within_at (nominal frame : list Z) (i : Z) :
  Forall2 within nominal frame ->
  (Z.to_nat i < length nominal)%nat ->
  within (burst_at nominal i) (burst_at frame i).
Proof.
  unfold burst_at. generalize (Z.to_nat i). intros n Hclose. revert n.
  induction Hclose as [|x y l k Hxy _ IH]; intros [|n] Hn; cbn in *;
    [lia | lia | assumption | apply IH; lia].
Qed.

Lemma team_frame_guards (id : Z) :
  decode_frame (team_frame id) = decode_bits (seqZ 1 8) (team_frame id) 0.
Proof. reflexivity. Qed.

(** A buffer whose bursts are each within the tolerance of the frame of
    [id] decodes to [id]. *)
Lemma decode_frame_within (id : Z) (frame : list Z) :
  0 <= id <= 255 ->
  Forall2 within (team_frame id) frame ->
  decode_frame frame = Some id.
Proof.
  intros Hid Hclose. rewrite <- (decode_team_frame id Hid), team_frame_guards.
  pose proof (Forall2_length _ _ _ Hclose) as Hlen.
  change (length (team_frame id)) with 10%nat in Hlen.
  assert (Hat : forall i, 0 <= i <= 9 ->
                within (burst_at (team_frame id) i) (burst_at frame i)).
  { intros i Hi. apply within_at; [assumption|].
    change (length (team_frame id)) with 10%nat. lia. }
  unfold decode_frame. rewrite <- Hlen. change (Z.of_nat 10 =? 10) with true.
  cbn [negb].
  pose proof (Hat 0 ltac:(lia)) as H0. pose proof (Hat 9 ltac:(lia)) as H9.
  change (burst_at (team_frame id) 0) with START_END_BURST in H0.
  change (burst_at (team_frame id) 9) with START_END_BURST in H9.
  unfold within in H0, H9.
  replace (TOLERANCE <? Z.abs (burst_at frame 0 - START_END_BURST)) with false
    by (symmetry; apply Z.ltb_ge; lia).
  replace (TOLERANCE <? Z.abs (burst_at frame 9 - START_END_BURST)) with false
    by (symmetry; apply Z.ltb_ge; lia).
  cbn [orb]. apply decode_bits_same_class.
  change (seqZ 1 8) with [1; 2; 3; 4; 5; 6; 7; 8].
  repeat constructor;
    (apply within_same_class; [apply bit_burst_cases | apply Hat; lia]).
Qed.

(** X3: jitter.  Ten bursts that are each within 200 us of the burst
    [send_team_id] asks for at that position are decoded to the id that
    was sent, and delivered to [on_laser_hit]. *)
Theorem jitter_round_trip (id : Z) (frame : list Z) (now : Q) (r : robot) :
  0 <= id <= 255 ->
  Forall2 within (team_frame id) frame ->
  decode_frame frame = Some id
  /\ process_bursts frame now r = on_laser_hit id now r.
Proof.
  intros Hid Hclose. unfold process_bursts.
  by rewrite (decode_frame_within id frame Hid Hclose).
Qed.

Lemma jitter_round_trip_witness :
  decode_frame [2200; 1400; 1000; 1800; 600; 790; 810; 1600; 1601; 2600]
  = Some 163.
Proof.
  refine (proj1 (jitter_round_trip 163
    [2200; 1400; 1000; 1800; 600; 790; 810; 1600; 1601; 2600]
    0 (initial_robot 0) ltac:(lia) _)).
  unfold team_frame. change (seqZ 0 8) with [0; 1; 2; 3; 4; 5; 6; 7].
  cbn [map app]. repeat constructor; unfold within; vm_compute; discriminate.
Defined.

Lemma send_ir_burst_emitted (us : Z) (r : robot) :
  emitted_bursts (send_ir_burst us r)
  = emitted_bursts r ++ [us / CARRIER_PERIOD_US * CARRIER_PERIOD_US].
Proof. unfold emitted_bursts, send_ir_burst. simpl. by rewrite map_app. Qed.

Lemma send_ir_bit_emitted (id i : Z) (r : robot) :
  0 <= 7 - i ->
  emitted_bursts (send_ir_bit (Z.land (Z.shiftr id (7 - i)) 1) r)
  = emitted_bursts r
    ++ [bit_burst id i / CARRIER_PERIOD_US * CARRIER_PERIOD_US].
Proof.
  intros Hi. rewrite land_shiftr_1 by assumption.
  unfold bit_burst, send_ir_bit.
  destruct (Z.testbit id (7 - i)); simpl; apply send_ir_burst_emitted.
Qed.

Lemma send_team_id_emitted (id : Z) (r : robot) :
  is_hit (laser_tag_state r) = false ->
  emitted_bursts (send_team_id id r)
  = emitted_bursts r
    ++ map (fun us => us / CARRIER_PERIOD_US * CARRIER_PERIOD_US) (team_frame id).
Proof.
  intros Hhit. unfold send_team_id. rewrite Hhit.
  change (seqZ 0 8) with [0; 1; 2; 3; 4; 5; 6; 7]. cbn [foldl].
  rewrite send_ir_burst_emitted.
  repeat (rewrite send_ir_bit_emitted by lia).
  rewrite send_ir_burst_emitted.
  unfold team_frame. change (seqZ 0 8) with [0; 1; 2; 3; 4; 5; 6; 7].
  cbn [map app]. rewrite <- !app_assoc. reflexivity.
Qed.

(** A burst of the protocol, cut to whole carrier periods, loses less than
    one period. *)
Lemma emitted_within (us : Z) :
  us = BIT_0_BURST \/ us = BIT_1_BURST \/ us = START_END_BURST ->
  within us (us / CARRIER_PERIOD_US * CARRIER_PERIOD_US)
  /\ us - CARRIER_PERIOD_US < us / CARRIER_PERIOD_US * CARRIER_PERIOD_US <= us.
Proof. intros [-> | [-> | ->]]; vm_compute; repeat split; discriminate. Qed.

(** X4: carrier quantisation.  [send_ir_burst] can only emit whole carrier
    periods of 26 us, so each burst on the air is up to 25 us shorter than
    the one asked for; the ten bursts as emitted still decode to the id
    that was sent. *)
Theorem emitted_round_trip (id : Z) (now : Q) (tx rx : robot) :
  0 <= id <= 255 ->
  is_hit (laser_tag_state tx) = false ->
  let frame := drop (length (ir_tx tx)) (emitted_bursts (send_team_id id tx)) in
  Forall2 (fun nominal b => nominal - CARRIER_PERIOD_US < b <= nominal)
          (team_frame id) frame
  /\ decode_frame frame = Some id
  /\ process_bursts frame now rx = on_laser_hit id now rx.
Proof.
  intros Hid Htx frame.
  assert (E : frame = map (fun us => us / CARRIER_PERIOD_US * CARRIER_PERIOD_US)
                          (team_frame id)).
  { subst frame. rewrite send_team_id_emitted by assumption.
    unfold emitted_bursts at 1. rewrite <- (length_map (fun b => cycles b * CARRIER_PERIOD_US)).
    apply drop_app_length. }
  assert (Hnominal : Forall (fun us => us = BIT_0_BURST \/ us = BIT_1_BURST
                                       \/ us = START_END_BURST) (team_frame id)).
  { unfold team_frame. change (seqZ 0 8) with [0; 1; 2; 3; 4; 5; 6; 7].
    cbn [map app]. repeat apply Forall_cons_2; try apply Forall_nil_2; try tauto.
    all: match goal with
         | |- context [bit_burst ?x ?i] =>
             destruct (bit_burst_cases x i) as [E0 | E1];
             [left | right; left]; assumption
         end. }
  rewrite E. split; [|unfold process_bursts; rewrite (decode_frame_within id); [done|done|]].
  - apply Forall2_fmap_r, Forall_Forall2_diag.
    eapply Forall_impl; [exact Hnominal|]. intros us Hus. by apply emitted_within.
  - apply Forall2_fmap_r, Forall_Forall2_diag.
    eapply Forall_impl; [exact Hnominal|]. intros us Hus. by apply emitted_within.
Qed.

Lemma emitted_round_trip_witness :
  drop 0 (emitted_bursts (send_team_id 165 (initial_robot 0)))
  = [2392; 1586; 780; 1586; 780; 780; 1586; 780; 1586; 2392]
  /\ decode_frame (drop 0 (emitted_bursts (send_team_id 165 (initial_robot 0))))
     = Some 165.
Proof.
  split; [reflexivity|].
  exact (proj1 (proj2 (emitted_round_trip 165 0 (initial_robot 0) (initial_robot 0)
                         ltac:(lia) eq_refl))).
Defined.

Lemma team_frame_mod (id : Z) : team_frame id = team_frame (id mod 256).
Proof.
  unfold team_frame. change (seqZ 0 8) with [0; 1; 2; 3; 4; 5; 6; 7].
  cbn [map]. unfold bit_burst. change 256 with (2 ^ 8).
  by rewrite !Z.mod_pow2_bits_low by lia.
Qed.

(** X5: wide ids.  [send_team_id] sends the low eight bits of whatever
    integer it is given, so a receiver decodes a team id outside 0..255 as
    its remainder modulo 256: team 257 hits as team 1, team -1 as 255. *)
Theorem wide_id_sent_modulo_256 (id : Z) (now : Q) (tx rx : robot) :
  is_hit (laser_tag_state tx) = false ->
  frame_sent id tx = frame_sent (id mod 256) tx
  /\ decode_frame (frame_sent id tx) = Some (id mod 256)
  /\ process_bursts (frame_sent id tx) now rx = on_laser_hit (id mod 256) now rx.
Proof.
  intros Htx. rewrite !frame_sent_eq by assumption.
  rewrite <- team_frame_mod. split; [reflexivity|].
  assert (E : decode_frame (team_frame id) = Some (id mod 256)).
  { rewrite team_frame_mod. apply decode_team_frame.
    pose proof (Z.mod_pos_bound id 256). lia. }
  unfold process_bursts. by rewrite E.
Qed.

Lemma wide_id_sent_modulo_256_witness :
  decode_frame (frame_sent 257 (initial_robot 0)) = Some 1
  /\ decode_frame (frame_sent (-1) (initial_robot 0)) = Some 255.
Proof.
  split.
  - exact (proj1 (proj2 (wide_id_sent_modulo_256 257 0 (initial_robot 0)
                           (initial_robot 0) eq_refl))).
  - exact (proj1 (proj2 (wide_id_sent_modulo_256 (-1) 0 (initial_robot 0)
                           (initial_robot 0) eq_refl))).
Defined.

(** ** The edge callback *)

Section EdgeCallback.

Variable tickDiff : Z -> Z -> Z.

(** X6: the buffer of a receiver never reaches ten bursts between two
    callbacks, and a callback changes the robot only by completing a
    buffer of nine with a tenth burst that arrives within 0.1 s: then it
    hands the ten bursts to [process_bursts] and empties the buffer. *)
Theorem edge_callback_buffer
    (self : receiver) (level tick : Z) (current_time clock : Q) (r : robot) :
  (length (bursts self) < 10)%nat ->
  let out := edge_callback tickDiff self level tick current_time clock r in
  (length (bursts out.1) < 10)%nat
  /\ (out.2 = r
      \/ (level = 1 /\ last_tick self <> 0
          /\ (current_time - last_burst_time self <= 1 # 10)%Q
          /\ length (bursts self) = 9%nat
          /\ bursts out.1 = []
          /\ out.2 = process_bursts
                       (bursts self ++ [tickDiff (last_tick self) tick]) clock r)).
Proof.
  intros Hlen out. subst out. unfold edge_callback.
  destruct (level =? 0) eqn:E0; [cbn; split; [assumption | by left]|].
  destruct (level =? 1) eqn:E1; cbn [andb]; [|cbn; split; [assumption | by left]].
  apply Z.eqb_eq in E1.
  destruct (last_tick self =? 0) eqn:Et; cbn [negb];
    [cbn; split; [assumption | by left]|].
  apply Z.eqb_neq in Et.
  assert (Hpartial : ∀ r, process_bursts (bursts self) clock r = r).
  { intros r0. unfold process_bursts, decode_frame.
    replace (Z.of_nat (length (bursts self)) =? 10) with false
      by (symmetry; apply Z.eqb_neq; lia).
    reflexivity. }
  destruct (Qltb (1 # 10) (current_time - last_burst_time self)) eqn:Egap; cbn [andb].
  - rewrite Hpartial. cbn [app length]. change (Z.of_nat 1 =? 10) with false.
    cbn. split; [lia|]. left. by destruct (0 <? _).
  - apply Qltb_ge in Egap. rewrite length_app. cbn [length].
    destruct (Z.of_nat (length (bursts self) + 1) =? 10) eqn:Efull;
      [apply Z.eqb_eq in Efull | apply Z.eqb_neq in Efull]; cbn.
    + split; [lia|]. right. repeat split; try done. lia.
    + split; [rewrite length_app; cbn; lia | by left].
Qed.

Lemma feed_pulse_restart (clock : Q) (self : receiver) (r : robot) (p : pulse) :
  (length (bursts self) < 10)%nat ->
  fall p <> 0 ->
  (1 # 10 < seen p - last_burst_time self)%Q ->
  feed_pulse tickDiff clock (self, r) p
  = ({| gpio := gpio self; bursts := [tickDiff (fall p) (rise p)];
        last_tick := fall p; last_burst_time := seen p |}, r).
Proof.
  intros Hlen Hfall Hgap. unfold feed_pulse, edge_callback. cbn.
  apply Z.eqb_neq in Hfall. apply Qltb_lt in Hgap. rewrite Hfall, Hgap.
  cbn [Z.eqb negb andb app length]. change (Z.of_nat 1 =? 10) with false.
  cbn. f_equal. destruct (0 <? _); [|reflexivity].
  unfold process_bursts, decode_frame.
  replace (Z.of_nat (length (bursts self)) =? 10) with false
    by (symmetry; apply Z.eqb_neq; lia).
  reflexivity.
Qed.

(** X7: the gap rule.  A burst that ends more than 0.1 s after the
    previous one makes the receiver drop whatever it had buffered, without
    any hit, and start a new buffer with that burst alone. *)
Theorem gap_restarts_buffer
    (clock : Q) (self : receiver) (r : robot) (p : pulse) :
  (length (bursts self) < 10)%nat ->
  fall p <> 0 ->
  (1 # 10 < seen p - last_burst_time self)%Q ->
  let out := feed_pulse tickDiff clock (self, r) p in
  bursts out.1 = [tickDiff (fall p) (rise p)]
  /\ last_burst_time out.1 = seen p
  /\ out.2 = r.
Proof.
  intros Hlen Hfall Hgap out. subst out.
  by rewrite feed_pulse_restart.
Qed.

(** X8: edges that are not acted on.  A falling edge only records its
    tick.  A rising edge is ignored while the recorded tick is 0, which is
    the case before any falling edge and also after a falling edge
    stamped with tick 0; a level other than 0 and 1 (the watchdog level)
    is ignored too.  So a whole pulse whose falling edge has tick 0
    leaves the buffer and the robot as they were. *)
Theorem edges_ignored
    (self : receiver) (level tick : Z) (current_time clock : Q)
    (p : pulse) (r : robot) :
  edge_callback tickDiff self 0 tick current_time clock r
  = ({| gpio := gpio self; bursts := bursts self; last_tick := tick;
        last_burst_time := last_burst_time self |}, r)
  /\ (last_tick self = 0 \/ (level <> 0 /\ level <> 1) ->
      level <> 0 ->
      edge_callback tickDiff self level tick current_time clock r = (self, r))
  /\ (fall p = 0 ->
      let out := feed_pulse tickDiff clock (self, r) p in
      bursts out.1 = bursts self
      /\ last_burst_time out.1 = last_burst_time self
      /\ out.2 = r).
Proof.
  split; [reflexivity|]. split.
  - intros Hcase Hlevel. unfold edge_callback.
    apply Z.eqb_neq in Hlevel. rewrite Hlevel.
    destruct Hcase as [-> | [_ H1]]; [by rewrite andb_false_r|].
    apply Z.eqb_neq in H1. by rewrite H1.
  - intros Hfall out. subst out. unfold feed_pulse, edge_callback. cbn.
    rewrite Hfall. cbn. done.
Qed.

Lemma feed_pulse_append (clock : Q) (self : receiver) (r : robot) (p : pulse) :
  fall p <> 0 ->
  (seen p - last_burst_time self <= 1 # 10)%Q ->
  length (bursts self) <> 9%nat ->
  feed_pulse tickDiff clock (self, r) p
  = ({| gpio := gpio self; bursts := bursts self ++ [tickDiff (fall p) (rise p)];
        last_tick := fall p; last_burst_time := seen p |}, r).
Proof.
  intros Hfall Hgap Hlen. unfold feed_pulse, edge_callback. cbn.
  apply Z.eqb_neq in Hfall. apply Qltb_ge in Hgap. rewrite Hfall, Hgap. cbn.
  rewrite length_app. cbn [length].
  replace (Z.of_nat (length (bursts self) + 1) =? 10) with false
    by (symmetry; apply Z.eqb_neq; lia).
  reflexivity.
Qed.

Lemma feed_pulse_complete (clock : Q) (self : receiver) (r : robot) (p : pulse) :
  fall p <> 0 ->
  (seen p - last_burst_time self <= 1 # 10)%Q ->
  length (bursts self) = 9%nat ->
  feed_pulse tickDiff clock (self, r) p
  = ({| gpio := gpio self; bursts := [];
        last_tick := fall p; last_burst_time := seen p |},
     process_bursts (bursts self ++ [tickDiff (fall p) (rise p)]) clock r).
Proof.
  intros Hfall Hgap Hlen. unfold feed_pulse, edge_callback. cbn.
  apply Z.eqb_neq in Hfall. apply Qltb_ge in Hgap. rewrite Hfall, Hgap. cbn.
  rewrite length_app. cbn [length].
  replace (Z.of_nat (length (bursts self) + 1) =? 10) with true
    by (symmetry; apply Z.eqb_eq; lia).
  reflexivity.
Qed.

(** Pulses without a gap fill the buffer up to ten bursts and then
    deliver it. *)
Lemma feed_pulses_fill (clock : Q) (ps : list pulse) (self : receiver) (r : robot) :
  ps <> [] ->
  steady (last_burst_time self) ps ->
  (length (bursts self) + length ps = 10)%nat ->
  let out := feed_pulses tickDiff clock ps (self, r) in
  bursts out.1 = []
  /\ out.2 = process_bursts
               (bursts self ++ map (fun p => tickDiff (fall p) (rise p)) ps)
               clock r.
Proof.
  revert self. induction ps as [|p ps IH]; intros self Hne Hsteady Hlen; [done|].
  destruct Hsteady as (Hfall & Hgap & Hsteady). cbn [length] in Hlen.
  unfold feed_pulses. cbn [foldl map]. destruct ps as [|q ps].
  - cbn [foldl length] in *. rewrite feed_pulse_complete by (done || lia). done.
  - rewrite feed_pulse_append by (done || cbn [length] in Hlen; lia).
    specialize (IH {| gpio := gpio self;
                      bursts := bursts self ++ [tickDiff (fall p) (rise p)];
                      last_tick := fall p; last_burst_time := seen p |}).
    cbn [bursts last_burst_time] in IH. rewrite <- app_assoc in IH.
    apply IH; [done | exact Hsteady |].
    rewrite length_app. cbn [length] in *. lia.
Qed.

(** X9: a frame through the callbacks.  Ten pulses, the first arriving on
    an empty buffer or more than 0.1 s after the previous burst, the others
    at most 0.1 s apart, all with a falling tick other than 0: the tenth
    rising edge hands the ten measured widths to [process_bursts] and
    empties the buffer; when the widths are within the tolerance of the
    frame of a team id, the robot takes the hit of that team. *)
Theorem pulses_deliver_frame
    (clock : Q) (p : pulse) (ps : list pulse) (self : receiver) (r : robot) :
  length ps = 9%nat ->
  fall p <> 0 ->
  steady (seen p) ps ->
  bursts self = []
  \/ ((length (bursts self) < 10)%nat
      /\ (1 # 10 < seen p - last_burst_time self)%Q) ->
  let widths := map (fun p => tickDiff (fall p) (rise p)) (p :: ps) in
  let out := feed_pulses tickDiff clock (p :: ps) (self, r) in
  bursts out.1 = []
  /\ out.2 = process_bursts widths clock r
  /\ (forall id, 0 <= id <= 255 -> Forall2 within (team_frame id) widths ->
      out.2 = on_laser_hit id clock r).
Proof.
  intros Hlen Hfall Hsteady Hstart widths out.
  assert (Hfirst : feed_pulse tickDiff clock (self, r) p
                   = ({| gpio := gpio self; bursts := [tickDiff (fall p) (rise p)];
                         last_tick := fall p; last_burst_time := seen p |}, r)).
  { destruct Hstart as [Hempty | [Hpartial Hgap]].
    - unfold feed_pulse, edge_callback. cbn. rewrite Hempty.
      apply Z.eqb_neq in Hfall. rewrite Hfall. cbn.
      by destruct (Qltb (1 # 10) (seen p - last_burst_time self)).
    - by apply feed_pulse_restart. }
  assert (Hout : bursts out.1 = [] /\ out.2 = process_bursts widths clock r).
  { subst out widths. unfold feed_pulses. cbn [foldl map]. rewrite Hfirst.
    destruct ps as [|q ps]; [done|].
    apply (feed_pulses_fill clock (q :: ps)
             {| gpio := gpio self; bursts := [tickDiff (fall p) (rise p)];
                last_tick := fall p; last_burst_time := seen p |} r);
      [done | exact Hsteady | cbn [bursts length] in *; lia]. }
  destruct Hout as [Hbuf Hrobot]. split; [exact Hbuf|]. split; [exact Hrobot|].
  intros id Hid Hclose. rewrite Hrobot. unfold process_bursts.
  by rewrite (decode_frame_within id widths Hid Hclose).
Qed.

End EdgeCallback.

Lemma edge_callback_buffer_witness :
  let self := {| gpio := 4;
                 bursts := [2400; 800; 800; 800; 800; 800; 800; 800; 1600];
                 last_tick := 5000; last_burst_time := 1 |} in
  let out := edge_callback pigpio_tickDiff self 1 7400 1 2 (initial_robot 0) in
  (length (bursts out.1) < 10)%nat
  /\ bursts out.1 = [] /\ hit_by_team (laser_tag_state out.2) = 1.
Proof.
  split; [|split; reflexivity].
  refine (proj1 (edge_callback_buffer pigpio_tickDiff
    {| gpio := 4; bursts := [2400; 800; 800; 800; 800; 800; 800; 800; 1600];
       last_tick := 5000; last_burst_time := 1 |} 1 7400 1 2 (initial_robot 0) _)).
  cbn. lia.
Defined.

Lemma gap_restarts_buffer_witness :
  let self := {| gpio := 4; bursts := [2400; 800; 1600];
                 last_tick := 5000; last_burst_time := 1 |} in
  let out := feed_pulse pigpio_tickDiff 3
               (self, initial_robot 0) {| fall := 9000; rise := 11400; seen := 2 |} in
  bursts out.1 = [2400] /\ last_burst_time out.1 = 2%Q /\ out.2 = initial_robot 0.
Proof.
  refine (gap_restarts_buffer pigpio_tickDiff 3
    {| gpio := 4; bursts := [2400; 800; 1600];
       last_tick := 5000; last_burst_time := 1 |}
    (initial_robot 0) {| fall := 9000; rise := 11400; seen := 2 |} _ _ _).
  - cbn. lia.
  - discriminate.
  - reflexivity.
Defined.

Lemma pulses_deliver_frame_witness :
  let out := feed_pulses pigpio_tickDiff 6 (pulse_train 1000 5 (team_frame 7))
               (new_receiver 4, initial_robot 0) in
  bursts out.1 = [] /\ out.2 = on_laser_hit 7 6 (initial_robot 0).
Proof.
  pose proof (pulses_deliver_frame pigpio_tickDiff 6
    {| fall := 1000; rise := 3400; seen := 5 |}
    (pulse_train 4200 (5 + (3 # 1000)) (tail (team_frame 7)))
    (new_receiver 4) (initial_robot 0)) as H.
  destruct H as (Hbuf & Hrobot & _).
  - reflexivity.
  - discriminate.
  - vm_compute. repeat split; discriminate.
  - left. reflexivity.
  - split; [exact Hbuf | exact Hrobot].
Defined.

(** ** Motor outputs *)

Lemma clamp_opp (v : Q) : (clamp (- v) (-1) 1 == - clamp v (-1) 1)%Q.
Proof.
  unfold clamp.
  destruct (py_min_cases 1 v) as [[H1 ->]|[H1 ->]];
  destruct (py_min_cases 1 (- v)) as [[H2 ->]|[H2 ->]];
  repeat match goal with
         | |- context [py_max ?a ?b] =>
             destruct (py_max_cases a b) as [[? ->]|[? ->]]
         end; lra.
Qed.

(** X10: reversing a wheel value reverses the motor and nothing else:
    [apply_motor] with [-v] gives the enable pin what it gets with [v] and
    the two direction pins swapped. *)
Theorem apply_motor_reversed (name : motor) (v : Q) (g : gmap Z pin_out) :
  let pins := MOTORS name in
  let g1 := apply_motor name v g in
  let g2 := apply_motor name (- v) g in
  g2 !! EN pins = g1 !! EN pins
  /\ g2 !! IN1 pins = g1 !! IN2 pins
  /\ g2 !! IN2 pins = g1 !! IN1 pins.
Proof.
  intros pins g1 g2. subst g1 g2.
  pose proof (motor_pins_distinct name) as (Hd1 & Hd2 & Hd3). fold pins in Hd1, Hd2, Hd3.
  unfold apply_motor. fold pins. unfold DIR_OFFSET.
  assert (En : (clamp (- v) (-1) 1 * 1 == - (clamp v (-1) 1 * 1))%Q)
    by (rewrite clamp_opp; ring).
  revert En. generalize (clamp (- v) (-1) 1 * 1)%Q (clamp v (-1) 1 * 1)%Q.
  intros n' n En.
  assert (Eabs : (Qabs n' == Qabs n)%Q) by (rewrite En; apply Qabs_opp).
  assert (E1 : Qltb (Qabs n') (1 # 1000) = Qltb (Qabs n) (1 # 1000))
    by (by rewrite Eabs).
  assert (E3 : py_int (Qabs n' * 100) = py_int (Qabs n * 100)).
  { apply py_int_proper; [|by rewrite Eabs].
    apply Qmult_le_0_compat; [apply Qabs_nonneg | done]. }
  rewrite E1, E3. unfold write, set_PWM_dutycycle.
  destruct (Qltb (Qabs n) (1 # 1000)) eqn:Estop; [by simplify_map_eq|].
  apply Qltb_ge in Estop.
  assert (Hdir : Qltb 0 n' = negb (Qltb 0 n)).
  { destruct (Qltb 0 n) eqn:Ep; cbn [negb].
    - apply Qltb_lt in Ep. apply Qltb_ge. lra.
    - apply Qltb_ge in Ep. apply Qltb_lt.
      assert (Hn : ~ (n == 0)%Q).
      { intros H0. rewrite H0 in Estop. vm_compute in Estop. by apply Estop. }
      lra. }
  rewrite Hdir.
  destruct (PURE_DC_THRESHOLD <=? py_int (Qabs n * 100));
    destruct (Qltb 0 n); cbn [negb]; by simplify_map_eq.
Qed.

Lemma apply_motor_direction (name : motor) (v : Q) (g : gmap Z pin_out) :
  direction_safe (apply_motor name v g) (MOTORS name).
Proof.
  pose proof (motor_pins_distinct name) as (Hd1 & Hd2 & Hd3).
  unfold direction_safe, apply_motor, write, set_PWM_dutycycle.
  cbv zeta in *. case_conditions; simplify_map_eq; by intros [[=] [=]].
Qed.

Lemma motor_pins_disjoint (name name' : motor) :
  name <> name' ->
  let p := MOTORS name in let p' := MOTORS name' in
  EN p <> IN1 p' /\ EN p <> IN2 p' /\ IN1 p <> IN1 p' /\ IN1 p <> IN2 p'
  /\ IN2 p <> IN1 p' /\ IN2 p <> IN2 p'.
Proof. destruct name, name'; done. Qed.

Lemma apply_motor_keeps_direction (name name' : motor) (v : Q) (g : gmap Z pin_out) :
  name <> name' ->
  direction_safe g (MOTORS name') ->
  direction_safe (apply_motor name v g) (MOTORS name').
Proof.
  intros Hne. unfold direction_safe.
  pose proof (motor_pins_disjoint name name' Hne) as (? & ? & ? & ? & ? & ?).
  by rewrite !apply_motor_other.
Qed.

Lemma drive_mecanum_safe
    (vx vy omega max_speed : Q) (g : gmap Z pin_out) (name : motor) :
  direction_safe (drive_mecanum vx vy omega max_speed g) (MOTORS name).
Proof.
  unfold drive_mecanum.
  destruct name;
    repeat first [apply apply_motor_direction
                 | apply apply_motor_keeps_direction; [done|]].
Qed.

Lemma stopped_safe (g : gmap Z pin_out) (m : motor_pins) :
  motor_stopped g m -> direction_safe g m.
Proof. intros (_ & H1 & _) [H _]. rewrite H1 in H. discriminate. Qed.

(** X11: whatever the command and whatever the pins were, [drive_mecanum]
    leaves no motor with both direction pins high, and a single
    [apply_motor] leaves the other three motors as they were. *)
Theorem drive_mecanum_direction_safe
    (vx vy omega max_speed v : Q) (g : gmap Z pin_out) (name other : motor) :
  direction_safe (drive_mecanum vx vy omega max_speed g) (MOTORS name)
  /\ direction_safe (apply_motor name v g) (MOTORS name)
  /\ (name <> other ->
      let g' := apply_motor name v g in
      g' !! EN (MOTORS other) = g !! EN (MOTORS other)
      /\ g' !! IN1 (MOTORS other) = g !! IN1 (MOTORS other)
      /\ g' !! IN2 (MOTORS other) = g !! IN2 (MOTORS other)).
Proof.
  split; [apply drive_mecanum_safe|]. split; [apply apply_motor_direction|].
  intros Hne g'. subst g'.
  assert (Hdis : forall a b : motor, a <> b ->
            EN (MOTORS a) <> EN (MOTORS b)) by (intros [] []; done).
  pose proof (motor_pins_disjoint name other Hne) as (? & ? & ? & ? & ? & ?).
  pose proof (motor_pins_disjoint other name (not_eq_sym Hne)) as (? & ? & ? & ? & ? & ?).
  pose proof (Hdis name other Hne).
  rewrite !apply_motor_other; done.
Qed.

(** ** Kinematics *)


Lemma Qabs_triangle3 (a b c : Q) : (Qabs (a + b + c) <= Qabs a + Qabs b + Qabs c)%Q.
Proof.
  apply Qle_trans with (Qabs (a + b) + Qabs c)%Q; [apply Qabs_triangle|].
  pose proof (Qabs_triangle a b). lra.
Qed.

(** X13: a command whose three magnitudes add up to at most 1 is not
    rescaled: the scale is 1 and each wheel value is its mix times
    [max_speed]. *)
Theorem small_command_not_rescaled (vx vy omega max_speed : Q) :
  (Qabs vx + Qabs vy + Qabs omega <= 1)%Q ->
  let w := mecanum_mix vx vy omega in
  let out := mecanum_wheels vx vy omega max_speed in
  mecanum_scale w = 1%Q
  /\ (fl out == fl w * max_speed /\ fr out == fr w * max_speed
      /\ rl out == rl w * max_speed /\ rr out == rr w * max_speed)%Q.
Proof.
  intros Hsum w out.
  assert (Hfl : (Qabs (fl w) <= 1)%Q).
  { subst w. cbn [fl mecanum_mix]. pose proof (Qabs_triangle3 vy vx omega). lra. }
  assert (Hfr : (Qabs (fr w) <= 1)%Q).
  { subst w. cbn [fr mecanum_mix]. unfold Qminus.
    pose proof (Qabs_triangle3 (- vy) vx (- omega)).
    rewrite !Qabs_opp in H. lra. }
  assert (Hrl : (Qabs (rl w) <= 1)%Q).
  { subst w. cbn [rl mecanum_mix].
    pose proof (Qabs_triangle3 (- vy) vx omega).
    rewrite !Qabs_opp in H. lra. }
  assert (Hrr : (Qabs (rr w) <= 1)%Q).
  { subst w. cbn [rr mecanum_mix]. unfold Qminus.
    pose proof (Qabs_triangle3 vy vx (- omega)).
    rewrite !Qabs_opp in H. lra. }
  assert (Hscale : mecanum_scale w = 1%Q).
  { unfold mecanum_scale, py_max. cbn [foldl].
    apply Qltb_ge in Hfl, Hfr, Hrl, Hrr. by rewrite Hfl, Hfr, Hrl, Hrr. }
  split; [exact Hscale|].
  subst out. unfold mecanum_wheels, mecanum_normalized. fold w.
  rewrite Hscale. cbn [fl fr rl rr]. repeat split; field.
Qed.

Lemma small_command_not_rescaled_witness :
  mecanum_scale (mecanum_mix (1 # 2) (1 # 4) (- (1 # 4))) = 1%Q
  /\ (fl (mecanum_wheels (1 # 2) (1 # 4) (- (1 # 4)) (1 # 2)) == 1 # 4)%Q.
Proof.
  pose proof (small_command_not_rescaled (1 # 2) (1 # 4) (- (1 # 4)) (1 # 2))
    as H.
  destruct H as (Hs & Hfl & _).
  - vm_compute. discriminate.
  - split; [exact Hs|]. rewrite Hfl. reflexivity.
Defined.

(** X14: when some raw wheel value exceeds 1 in magnitude the
    normalisation is tight: the scale is above 1 and some normalised wheel
    has magnitude exactly 1. *)
Theorem normalisation_is_tight (vx vy omega : Q) :
  let w := mecanum_mix vx vy omega in
  let n := mecanum_normalized vx vy omega in
  (1 < Qabs (fl w) \/ 1 < Qabs (fr w) \/ 1 < Qabs (rl w) \/ 1 < Qabs (rr w))%Q ->
  (1 < mecanum_scale w)%Q
  /\ (Qabs (fl n) == 1 \/ Qabs (fr n) == 1
      \/ Qabs (rl n) == 1 \/ Qabs (rr n) == 1)%Q.
Proof.
  intros w n Hbig.
  pose proof (mecanum_scale_bounds w) as (Hs & Hfl & Hfr & Hrl & Hrr).
  cbv zeta in *.
  assert (Hgt : (1 < mecanum_scale w)%Q) by (destruct Hbig as [?|[?|[?|?]]]; lra).
  split; [exact Hgt|].
  assert (Hunit : forall x, mecanum_scale w = Qabs x ->
                            (Qabs (x / mecanum_scale w) == 1)%Q).
  { intros x Hx. unfold Qdiv. rewrite Qabs_Qmult, Qabs_Qinv.
    rewrite (Qabs_pos (mecanum_scale w)) by lra. rewrite <- Hx at 1.
    field. lra. }
  subst n. unfold mecanum_normalized. fold w. cbn [fl fr rl rr].
  destruct (mecanum_scale_attained w) as [H1|[H|[H|[H|H]]]]; cbv zeta in *.
  - exfalso. rewrite H1 in Hgt. lra.
  - left. by apply Hunit.
  - right; left. by apply Hunit.
  - right; right; left. by apply Hunit.
  - right; right; right. by apply Hunit.
Qed.

Lemma normalisation_is_tight_witness :
  (1 < mecanum_scale (mecanum_mix 1 1 1))%Q
  /\ (Qabs (fl (mecanum_normalized 1 1 1)) == 1)%Q.
Proof.
  split; [|reflexivity].
  refine (proj1 (normalisation_is_tight 1 1 1 _)). left. reflexivity.
Defined.

(** ** Clamping *)

(** X15: [clamp(v, lo, hi)] with [lo <= hi] lands between the bounds,
    returns the bound that [v] is beyond and [v] itself otherwise, and
    clamping twice is clamping once.  With the bounds the wrong way round
    it returns [lo], whatever [v] is. *)
Theorem clamp_spec (v lo hi : Q) :
  ((lo <= hi)%Q ->
   (lo <= clamp v lo hi <= hi)%Q
   /\ ((v <= lo)%Q -> (clamp v lo hi == lo)%Q)
   /\ ((hi <= v)%Q -> (clamp v lo hi == hi)%Q)
   /\ ((lo <= v <= hi)%Q -> (clamp v lo hi == v)%Q)
   /\ (clamp (clamp v lo hi) lo hi == clamp v lo hi)%Q)
  /\ ((hi < lo)%Q -> clamp v lo hi = lo).
Proof.
  split.
  - intros Hle. pose proof (clamp_bounds v lo hi Hle) as Hb.
    split; [exact Hb|].
    split; [|split; [|split; [by apply clamp_inside | by apply clamp_inside]]];
      intros Hv; unfold clamp;
      destruct (py_min_cases hi v) as [[? ->]|[? ->]];
      match goal with
      | |- context [py_max ?a ?b] =>
          destruct (py_max_cases a b) as [[? ->]|[? ->]]
      end; lra.
  - intros Hlt. unfold clamp.
    destruct (py_min_cases hi v) as [[? ->]|[? ->]];
      match goal with
      | |- context [py_max ?a ?b] =>
          destruct (py_max_cases a b) as [[? ->]|[? ->]]
      end; (reflexivity || (exfalso; lra)).
Qed.

(** ** Pins at start-up, in standby and at shutdown *)

(** Equality of two pin maps, pin by pin over the pins the program
    writes. *)
Ltac pin_by_pin :=
  apply map_eq; intros ?;
  repeat match goal with
         | |- context [<[?k:=_]> _ !! ?q] =>
             destruct (decide (k = q)) as [<-|];
             [by simplify_map_eq | rewrite !(lookup_insert_ne _ k) by done]
         end;
  done.

(** X16: after [setup_io], whatever the pins were, both STBY pins are
    high, the three pins of every motor are low with no PWM running, and
    the IR transmit pin is low. *)
Theorem setup_io_pins (g : gmap Z pin_out) (name : motor) :
  let g' := setup_io g in
  standby_pins true g'
  /\ g' !! EN (MOTORS name) = Some (Level false)
  /\ g' !! IN1 (MOTORS name) = Some (Level false)
  /\ g' !! IN2 (MOTORS name) = Some (Level false)
  /\ g' !! IR_TX_GPIO = Some (Level false).
Proof.
  unfold setup_io, standby_pins, STBY_PINS, MOTORS_values, IR_TX_GPIO, write.
  cbn [map foldl MOTORS EN IN1 IN2]. split.
  - repeat constructor; by simplify_map_eq.
  - destruct name; cbn [MOTORS EN IN1 IN2]; by simplify_map_eq.
Qed.

(** X17: the shutdown path and the standby writes compose as expected.
    [cleanup] leaves every motor output at zero and both STBY pins low,
    from any pin state; it writes exactly what [enter_standby] writes.
    Stopping the motors before entering standby, as [on_laser_hit] does,
    adds nothing; stopping, entering and leaving standby twice is the
    same as once; and leaving standby after entering it leaves the motors
    stopped with the STBY pins high. *)
Theorem standby_writes_compose (g : gmap Z pin_out) :
  (all_motors_stopped (cleanup g) /\ standby_pins false (cleanup g)
   /\ cleanup g = enter_standby g)
  /\ enter_standby (stop_all_motors g) = enter_standby g
  /\ stop_all_motors (stop_all_motors g) = stop_all_motors g
  /\ enter_standby (enter_standby g) = enter_standby g
  /\ exit_standby (exit_standby g) = exit_standby g
  /\ (all_motors_stopped (exit_standby (enter_standby g))
      /\ standby_pins true (exit_standby (enter_standby g))).
Proof.
  assert (Hstop : stop_all_motors (stop_all_motors g) = stop_all_motors g).
  { unfold stop_all_motors, MOTORS_values. cbn [map foldl].
    unfold stop_motor, write, set_PWM_dutycycle. cbn [MOTORS EN IN1 IN2].
    pin_by_pin. }
  split; [|split; [|split; [|split; [|split]]]].
  - change (cleanup g) with (enter_standby g).
    split; [apply enter_standby_spec|]. split; [apply enter_standby_spec | reflexivity].
  - unfold enter_standby. by rewrite Hstop.
  - exact Hstop.
  - unfold enter_standby, STBY_PINS, stop_all_motors, MOTORS_values.
    cbn [map foldl]. unfold stop_motor, write, set_PWM_dutycycle.
    cbn [MOTORS EN IN1 IN2]. pin_by_pin.
  - unfold exit_standby, STBY_PINS, write. cbn [foldl]. pin_by_pin.
  - split; [apply exit_standby_spec, enter_standby_spec | apply exit_standby_spec].
Qed.

(** ** What every reachable state satisfies *)

Lemma exit_standby_safe (g : gmap Z pin_out) (name : motor) :
  direction_safe g (MOTORS name) -> direction_safe (exit_standby g) (MOTORS name).
Proof.
  unfold direction_safe, exit_standby, STBY_PINS, write. cbn [foldl].
  destruct name; cbn [MOTORS IN1 IN2]; by simplify_map_eq.
Qed.

Lemma all_stopped_safe (g : gmap Z pin_out) :
  all_motors_stopped g -> forall name, direction_safe g (MOTORS name).
Proof. intros H name. apply stopped_safe, H. Qed.

(** A transmission changes the log of sent bursts and nothing else. *)
Lemma send_team_id_only_log (id : Z) (r : robot) :
  exists l, send_team_id id r = set_ir_tx l r.
Proof.
  unfold send_team_id. destruct (is_hit (laser_tag_state r)).
  - exists (ir_tx r). by destruct r.
  - change (seqZ 0 8) with [0; 1; 2; 3; 4; 5; 6; 7]. cbn [foldl].
    unfold send_ir_bit, send_ir_burst. case_conditions; eexists; reflexivity.
Qed.

Lemma consistent_initial (start : Q) : consistent (initial_robot start).
Proof.
  unfold consistent, initial_robot. cbn [state laser_tag_state in_standby pi].
  split; [done|]. split; [done|]. split; [done|]. split; [done|].
  split; [done|]. split; [|split; [|done]].
  - intros _ _. unfold standby_pins, STBY_PINS. by repeat constructor.
  - intros []; by intros [[=] _].
Qed.

Lemma consistent_on_laser_hit (id : Z) (now : Q) (r : robot) :
  0 <= id <= 255 -> consistent r -> consistent (on_laser_hit id now r).
Proof.
  intros Hid Hr. destruct (is_hit (laser_tag_state r)) eqn:Hhit.
  - unfold on_laser_hit. by rewrite Hhit.
  - rewrite on_laser_hit_accepted by assumption.
    destruct Hr as (Hspeed & _). unfold consistent.
    cbn [state laser_tag_state in_standby pi is_hit time_remaining hit_by_team].
    split; [exact Hspeed|]. split; [done|]. split; [exact Hid|].
    split; [done|]. split; [intros _; split; apply enter_standby_spec|].
    split; [done|]. split; [apply all_stopped_safe|intros _]; apply enter_standby_spec.
Qed.

Lemma consistent_update_timer (now : Q) (r : robot) :
  consistent r -> consistent (update_timer now r).
Proof.
  intros Hr. destruct (is_hit (laser_tag_state r)) eqn:Hhit;
    [|by rewrite update_timer_idle].
  destruct Hr as (Hspeed & Hrem & Hby & Hidle & Hflag & Hon & Hsafe & Hstop).
  destruct (Qlt_le_dec (now - hit_time (laser_tag_state r)) HIT_DISABLE_TIME)
    as [Hlt|Hge].
  - rewrite update_timer_running by assumption. unfold consistent.
    cbn [state laser_tag_state in_standby pi set_laser_tag_state is_hit
         time_remaining hit_by_team].
    split; [exact Hspeed|]. split; [apply py_max_lub|]. split; [exact Hby|].
    split; [done|]. split; [exact Hflag|]. split; [done|].
    split; [exact Hsafe | intros _; by apply Hstop].
  - rewrite update_timer_expired by assumption. unfold consistent.
    cbn [state laser_tag_state in_standby pi].
    split; [exact Hspeed|]. split; [done|]. split; [done|]. split; [done|].
    split; [done|]. split; [intros _ _; apply exit_standby_spec|].
    split; [|done]. intros name. apply exit_standby_safe, Hsafe.
Qed.

Lemma consistent_motor_control (now : Q) (r : robot) :
  consistent r -> consistent (motor_control now r).
Proof.
  intros (Hspeed & Hrem & Hby & Hidle & Hflag & Hon & Hsafe & Hstop).
  unfold motor_control, consistent.
  destruct (is_hit (laser_tag_state r) || estop (state r)
            || Qltb COMMAND_TIMEOUT_S (now - last_cmd_time r)).
  { cbn [state laser_tag_state in_standby pi set_pi].
    repeat (split; [assumption|]).
    split; [|split; [|split]].
    - intros Hs. destruct (Hflag Hs). split;
        [by apply stop_all_motors_keeps_standby | apply stop_all_motors_stopped].
    - intros H1 H2. by apply stop_all_motors_keeps_standby, Hon.
    - apply all_stopped_safe, stop_all_motors_stopped.
    - intros _. apply stop_all_motors_stopped. }
  destruct (Qltb POWER_SAVE_TIMEOUT_S (now - last_input_time r)
            && negb (in_standby r)).
  { cbn [state laser_tag_state in_standby pi set_pi set_in_standby].
    repeat (split; [assumption|]).
    split; [intros _; split; apply enter_standby_spec|]. split; [done|].
    split; [apply all_stopped_safe|intros _]; apply enter_standby_spec. }
  destruct (negb (in_standby r) && negb (is_hit (laser_tag_state r))) eqn:E;
    [|done].
  apply andb_true_iff in E as [Hs Hhit]. apply negb_true_iff in Hs, Hhit.
  cbn [state laser_tag_state in_standby pi set_pi].
  repeat (split; [assumption|]).
  split; [by rewrite Hs|]. split; [intros _ _; by apply drive_mecanum_STBY, Hon|].
  split; [intros name; apply drive_mecanum_safe | by rewrite Hhit].
Qed.

Lemma consistent_datagram (data : option message) (now : Q) (r : robot) :
  consistent r -> consistent (h_robot (datagram_received data now r)).
Proof.
  intros Hr. destruct data as [msg|]; [|exact Hr].
  destruct Hr as (Hspeed & Hrem & Hby & Hidle & Hflag & Hon & Hsafe & Hstop).
  unfold consistent. cbn [datagram_received h_robot state laser_tag_state
                          in_standby pi update_state speed].
  split; [by apply clamp_bounds|]. repeat (split; [assumption|]).
  destruct (in_standby r && wakes (update_state msg (state r))).
  - split; [done|]. split; [intros _ _; apply exit_standby_spec|].
    split; [intros name; apply exit_standby_safe, Hsafe|].
    intros Hhit. by apply exit_standby_spec, Hstop.
  - done.
Qed.

Lemma consistent_step (r : robot) (e : event) :
  consistent r -> consistent (step r e).
Proof.
  intros Hr. destruct e as [now|data now|frame now|t]; cbn [step].
  - by apply consistent_motor_control, consistent_update_timer.
  - by apply consistent_datagram.
  - unfold process_bursts. destruct (decode_frame frame) as [id|] eqn:E; [|done].
    apply consistent_on_laser_hit; [by apply (decode_frame_byte frame) | done].
  - destruct t. cbn [run_thread].
    destruct (send_team_id_only_log (team_id (state r)) r) as [l ->]. exact Hr.
Qed.

Lemma reachable_consistent (r : robot) : reachable r -> consistent r.
Proof.
  intros (start & es & ->). unfold run.
  generalize (consistent_initial start). generalize (initial_robot start).
  induction es as [|e es IH]; intros r Hr; [done|].
  cbn [foldl]. by apply IH, consistent_step.
Qed.





(** X20: flag and pins of a reachable robot agree.  While [in_standby] is
    set both STBY pins are low and every motor output is zero; a robot
    that is neither hit nor in standby has both STBY pins high; a robot
    that is hit has every motor output at zero; and no motor ever has
    both direction pins high. *)
Theorem pins_agree_with_flags (r : robot) :
  reachable r ->
  (in_standby r = true -> standby_pins false (pi r) /\ all_motors_stopped (pi r))
  /\ (is_hit (laser_tag_state r) = false -> in_standby r = false ->
      standby_pins true (pi r))
  /\ (is_hit (laser_tag_state r) = true -> all_motors_stopped (pi r))
  /\ (forall name, direction_safe (pi r) (MOTORS name)).
Proof.
  intros Hr.
  apply reachable_consistent in Hr as (_ & _ & _ & _ & Hflag & Hon & Hsafe & Hstop).
  done.
Qed.

Lemma pins_agree_with_flags_witness :
  in_standby standby_robot = true
  /\ standby_pins false (pi standby_robot)
  /\ all_motors_stopped (pi standby_robot).
Proof.
  assert (Hreach : reachable standby_robot).
  { exists 0%Q, [datagram (Some idle_message) (105 # 10); tick (106 # 10)].
    reflexivity. }
  split; [reflexivity|].
  exact (proj1 (pins_agree_with_flags standby_robot Hreach) eq_refl).
Defined.

(** ** Who writes what *)

(** X21: the write sets of the handlers.  A datagram never touches a
    motor pin, the laser tag state or the log of sent bursts; a control
    iteration never touches the cached command, the two timestamps or the
    log; a processed buffer never touches the command, the timestamps, the
    standby flag or the log; a transmission thread touches the log only. *)
Theorem handler_write_sets
    (data : option message) (frame : list Z) (now : Q) (r : robot) (name : motor) :
  (let r' := h_robot (datagram_received data now r) in
   pi r' !! EN (MOTORS name) = pi r !! EN (MOTORS name)
   /\ pi r' !! IN1 (MOTORS name) = pi r !! IN1 (MOTORS name)
   /\ pi r' !! IN2 (MOTORS name) = pi r !! IN2 (MOTORS name)
   /\ laser_tag_state r' = laser_tag_state r
   /\ ir_tx r' = ir_tx r)
  /\ (let r' := control_tick now r in
      state r' = state r
      /\ last_cmd_time r' = last_cmd_time r
      /\ last_input_time r' = last_input_time r
      /\ ir_tx r' = ir_tx r)
  /\ (let r' := process_bursts frame now r in
      state r' = state r
      /\ last_cmd_time r' = last_cmd_time r
      /\ last_input_time r' = last_input_time r
      /\ in_standby r' = in_standby r
      /\ ir_tx r' = ir_tx r)
  /\ (let r' := run_thread fire_thread r in
      pi r' = pi r /\ state r' = state r
      /\ last_cmd_time r' = last_cmd_time r
      /\ last_input_time r' = last_input_time r
      /\ in_standby r' = in_standby r
      /\ laser_tag_state r' = laser_tag_state r).
Proof.
  split; [|split; [|split]].
  - destruct data as [msg|]; [|done]. cbn.
    destruct (in_standby r && wakes _); [|done].
    unfold exit_standby, STBY_PINS, write. cbn [foldl].
    destruct name; cbn [MOTORS EN IN1 IN2]; by simplify_map_eq.
  - unfold control_tick, motor_control, update_timer. cbv zeta.
    case_conditions; done.
  - unfold process_bursts. destruct (decode_frame frame); [|done].
    unfold on_laser_hit. cbv zeta. case_conditions; done.
  - cbv zeta. unfold run_thread.
    destruct (send_team_id_only_log (team_id (state r)) r) as [l ->]. done.
Qed.

(** ** Transmission and standby over time *)





(** In standby and not hit, with the drivers de-energized and the motors
    stopped. *)
Lemma asleep_step (r : robot) (e : event) :
  in_standby r = true -> is_hit (laser_tag_state r) = false ->
  standby_pins false (pi r) -> all_motors_stopped (pi r) ->
  quiet_event r e ->
  let r' := step r e in
  in_standby r' = true /\ is_hit (laser_tag_state r') = false
  /\ standby_pins false (pi r') /\ all_motors_stopped (pi r').
Proof.
  intros Hs Hhit Hpins Hstop He. destruct e as [now|data now|frame now|t]; cbn [step].
  - unfold control_tick. rewrite update_timer_idle by assumption.
    unfold motor_control. rewrite Hs, Hhit. cbn [negb andb orb].
    rewrite andb_false_r.
    destruct (estop (state r) || Qltb COMMAND_TIMEOUT_S (now - last_cmd_time r)).
    + cbn. split; [done|]. split; [done|].
      split; [by apply stop_all_motors_keeps_standby | apply stop_all_motors_stopped].
    + done.
  - destruct data as [msg|]; [|done]. cbn [quiet_event] in He. cbn.
    by rewrite He, andb_false_r.
  - cbn [quiet_event] in He. unfold process_bursts. by rewrite He.
  - destruct t. cbv zeta. unfold run_thread.
    destruct (send_team_id_only_log (team_id (state r)) r) as [l ->]. done.
Qed.

(** X23: power-save standby.  A control iteration on a robot that is not
    hit, with no estop, a command at most 0.8 s old and input more than
    10 s old, puts it in standby: flag set, both STBY pins low, every motor
    output zero.  From there, control iterations, commands inside the
    deadband, buffers that are no valid frame and transmission threads, in
    any number and order, leave it in standby with the drivers
    de-energized. *)
Theorem standby_entered_and_kept (now : Q) (es : list event) (r : robot) :
  is_hit (laser_tag_state r) = false ->
  in_standby r = false ->
  estop (state r) = false ->
  (now - last_cmd_time r <= COMMAND_TIMEOUT_S)%Q ->
  (POWER_SAVE_TIMEOUT_S < now - last_input_time r)%Q ->
  let r1 := control_tick now r in
  (in_standby r1 = true /\ standby_pins false (pi r1)
   /\ all_motors_stopped (pi r1))
  /\ (quiet es r1 ->
      let r2 := run es r1 in
      in_standby r2 = true /\ is_hit (laser_tag_state r2) = false
      /\ standby_pins false (pi r2) /\ all_motors_stopped (pi r2)).
Proof.
  intros Hhit Hs Hestop Hcmd Hinput r1.
  assert (H1 : in_standby r1 = true /\ is_hit (laser_tag_state r1) = false
               /\ standby_pins false (pi r1) /\ all_motors_stopped (pi r1)).
  { subst r1. unfold control_tick. rewrite update_timer_idle by assumption.
    unfold motor_control. apply Qltb_ge in Hcmd. apply Qltb_lt in Hinput.
    rewrite Hhit, Hestop, Hcmd, Hinput, Hs. cbn.
    split; [done|]. split; [done|]. split; apply enter_standby_spec. }
  split; [tauto|]. clearbody r1. clear -H1. unfold run.
  revert r1 H1. induction es as [|e es IH]; intros r1 H1 Hq; [done|].
  destruct Hq as [He Hq]. cbn [foldl]. apply IH; [|assumption].
  destruct H1 as (? & ? & ? & ?). by apply asleep_step.
Qed.

Lemma standby_entered_and_kept_witness :
  let r := h_robot (datagram_received (Some idle_message) (105 # 10) (initial_robot 0)) in
  let r2 := run [tick 11; datagram (Some idle_message) 12; tick 30;
                 ir_frame [2400; 800] 31; thread_run fire_thread]
                (control_tick (106 # 10) r) in
  in_standby r2 = true /\ standby_pins false (pi r2).
Proof.
  intros r r2.
  pose proof (standby_entered_and_kept (106 # 10)
    [tick 11; datagram (Some idle_message) 12; tick 30;
     ir_frame [2400; 800] 31; thread_run fire_thread] r) as H.
  destruct H as (_ & H); try reflexivity.
  - intros H. discriminate H.
  - destruct H as (Hs & _ & Hp & _); [|split; [exact Hs | exact Hp]].
    cbn. repeat split.
Defined.



(** ** Estop and self hits *)



(** X26: self hits.  A robot that is not hit fires, and its own receiver
    gets the frame: the robot is disabled with every motor stopped and can
    no longer fire.  The hit is flagged as a self hit when the robot's team
    id is a byte; with a team id outside 0..255 the frame carries the id
    modulo 256, which can never equal the robot's own, so the robot is
    disabled by its own shot without the flag. *)
Theorem own_frame_disables (now : Q) (r : robot) :
  is_hit (laser_tag_state r) = false ->
  let id := team_id (state r) in
  let r1 := run_thread fire_thread r in
  let r2 := process_bursts (frame_sent id r) now r1 in
  is_hit (laser_tag_state r2) = true
  /\ hit_by_team (laser_tag_state r2) = id mod 256
  /\ all_motors_stopped (pi r2)
  /\ run_thread fire_thread r2 = r2
  /\ (is_self_hit (laser_tag_state r2) = true <-> 0 <= id <= 255).
Proof.
  intros Hhit id r1 r2.
  assert (Hdec : decode_frame (frame_sent id r) = Some (id mod 256)).
  { rewrite frame_sent_eq, team_frame_mod by assumption.
    apply decode_team_frame. pose proof (Z.mod_pos_bound id 256). lia. }
  destruct (send_team_id_only_log id r) as [l Hl].
  assert (E : r2 = on_laser_hit (id mod 256) now (set_ir_tx l r)).
  { subst r2 r1. unfold process_bursts, run_thread. fold id. by rewrite Hdec, Hl. }
  rewrite E, on_laser_hit_accepted by done.
  cbn [laser_tag_state is_hit hit_by_team is_self_hit pi state set_ir_tx].
  fold id. split; [done|]. split; [done|]. split; [apply enter_standby_spec|].
  split; [reflexivity|]. rewrite Z.eqb_eq. split.
  - intros <-. pose proof (Z.mod_pos_bound id 256). lia.
  - intros Hid. apply Z.mod_small. lia.
Qed.

Lemma own_frame_disables_witness :
  let r := h_robot (datagram_received
             (Some {| msg_vx := None; msg_vy := None; msg_omega := None;
                      msg_speed := None; msg_estop := None; msg_fire := Some true;
                      msg_team_id := Some 300; msg_last_input_time := None |})
             1 (initial_robot 0)) in
  let r2 := process_bursts (frame_sent 300 r) 2 (run_thread fire_thread r) in
  hit_by_team (laser_tag_state r2) = 44
  /\ is_self_hit (laser_tag_state r2) = false.
Proof.
  intros r r2.
  pose proof (own_frame_disables 2 r eq_refl) as (_ & Hby & _ & _ & Hself).
  split; [exact Hby|].
  destruct (is_self_hit (laser_tag_state r2)) eqn:E; [|reflexivity].
  exfalso. apply Hself in E. change (team_id (state r)) with 300 in E. lia.
Defined.

(** X27: a hit ends power-save standby.  A robot hit while in standby
    keeps the flag during the disable time, but the control iteration that
    sees the disable time elapsed clears the flag and writes the STBY pins
    high, although no command asked for it.  With a stale command (or
    estop) the iteration ends there: drivers energized, motors stopped, not
    in standby.  With a fresh command and input still older than 10 s the
    same iteration enters standby again. *)
Theorem hit_ends_standby (id : Z) (t0 now : Q) (r : robot) :
  in_standby r = true ->
  is_hit (laser_tag_state r) = false ->
  (HIT_DISABLE_TIME <= now - t0)%Q ->
  let r1 := on_laser_hit id t0 r in
  let r2 := control_tick now r1 in
  in_standby r1 = true
  /\ is_hit (laser_tag_state r2) = false
  /\ (estop (state r) = true \/ (COMMAND_TIMEOUT_S < now - last_cmd_time r)%Q ->
      in_standby r2 = false
      /\ standby_pins true (pi r2)
      /\ all_motors_stopped (pi r2))
  /\ (estop (state r) = false ->
      (now - last_cmd_time r <= COMMAND_TIMEOUT_S)%Q ->
      (POWER_SAVE_TIMEOUT_S < now - last_input_time r)%Q ->
      in_standby r2 = true
      /\ standby_pins false (pi r2)
      /\ all_motors_stopped (pi r2)).
Proof.
  intros Hs Hhit Hge r1 r2. subst r2 r1.
  rewrite on_laser_hit_accepted by assumption. unfold control_tick.
  rewrite update_timer_expired by done.
  cbn [in_standby pi laser_tag_state state last_cmd_time last_input_time].
  split; [assumption|]. split; [by rewrite motor_control_laser|]. split.
  - intros Hstop. unfold motor_control.
    cbn [in_standby pi laser_tag_state state last_cmd_time is_hit
         initial_laser_tag_state orb].
    assert (E : estop (state r) || Qltb COMMAND_TIMEOUT_S (now - last_cmd_time r)
                = true).
    { destruct Hstop as [-> | Hlate]; [done|].
      apply Qltb_lt in Hlate. by rewrite Hlate, orb_true_r. }
    rewrite E. cbn [in_standby pi set_pi]. split; [done|].
    split; [apply stop_all_motors_keeps_standby, exit_standby_spec
           | apply stop_all_motors_stopped].
  - intros Hestop Hcmd Hinput. unfold motor_control.
    cbn [in_standby pi laser_tag_state state last_cmd_time last_input_time
         is_hit initial_laser_tag_state orb negb].
    apply Qltb_ge in Hcmd. apply Qltb_lt in Hinput.
    rewrite Hestop, Hcmd, Hinput.
    cbn [orb andb in_standby pi set_pi set_in_standby].
    split; [done|]. split; apply enter_standby_spec.
Qed.

Lemma hit_ends_standby_witness :
  let r2 := control_tick 21 (on_laser_hit 2 11 standby_robot) in
  in_standby standby_robot = true
  /\ in_standby r2 = false
  /\ standby_pins true (pi r2).
Proof.
  intros r2. split; [reflexivity|].
  pose proof (hit_ends_standby 2 11 21 standby_robot eq_refl eq_refl) as H.
  destruct H as (_ & _ & H & _); [intros H; discriminate H|].
  destruct H as (H1 & H2 & _); [right; reflexivity|].
  split; [exact H1 | exact H2].
Defined.
